(** * transmission_curses: the live view-model core

    A shallow embedding of the list walker ([torrent_list.py]) and of the
    polling loop, the callback bridge and the staleness display
    ([console.py]), with the properties the specification states about them.

    Python values are restricted to the JSON scalars the list is keyed and
    ordered by (integers and strings); clock readings are exact rationals. *)

From Stdlib Require Import ZArith QArith Qround String Ascii List Lia.
From Stdlib Require Import Sorting.Sorted OrderedTypeEx.
From stdpp Require Import gmap strings list sorting pretty.

Local Open Scope Z_scope.
Local Open Scope string_scope.
Local Open Scope list_scope.
Local Open Scope stdpp_scope.

(** ** Python values, exceptions and results *)

Module Py.

(** The values of the fields the modelled code reads: integers and strings.
    Fields that hold floating-point numbers are not modelled, and nothing
    below is said about comparing an integer with one. *)
Inductive value :=
| VInt (z : Z)
| VStr (s : string).

#[global] Instance value_eq_dec : EqDecision value.
Proof. solve_decision. Defined.

Inductive exn :=
| KeyError (k : value)
| TypeError
| IndexError
| StopIteration
| RemoteError (reason : string).

Inductive result (A : Type) :=
| Ok (a : A)
| Raise (e : exn).
Arguments Ok {A} a.
Arguments Raise {A} e.

#[global] Instance result_ret : MRet result := fun A a => Ok a.
#[global] Instance result_bind : MBind result := fun A B f m =>
  match m with
  | Ok a => f a
  | Raise e => Raise e
  end.

(** [d[k]] on a JSON object received from the daemon. *)
Definition getitem (d : gmap string value) (k : string) : result value :=
  match d !! k with
  | Some v => Ok v
  | None => Raise (KeyError (VStr k))
  end.

(** [a < b]: integers numerically, strings lexicographically, anything
    else is a [TypeError]. *)
Definition py_lt (a b : value) : result bool :=
  match a, b with
  | VInt x, VInt y => Ok (x <? y)%Z
  | VStr s, VStr t => Ok (String.ltb s t)
  | _, _ => Raise TypeError
  end.

(** A [dict] keeps insertion order; storing under a key already present
    replaces the value and leaves the key where it was first inserted. *)
Definition dict (V : Type) := list (value * V).

Fixpoint dict_set {V} (k : value) (v : V) (d : dict V) : dict V :=
  match d with
  | [] => [(k, v)]
  | (k', v') :: d' =>
      if decide (k = k') then (k', v) :: d' else (k', v') :: dict_set k v d'
  end.

Fixpoint dict_get {V} (k : value) (d : dict V) : result V :=
  match d with
  | [] => Raise (KeyError k)
  | (k', v) :: d' => if decide (k = k') then Ok v else dict_get k d'
  end.

Definition dict_keys {V} (d : dict V) : list value := d.*1.

(** *** [list.sort(key=..., reverse=...)]

    The keys are computed once, left to right, before any comparison; the
    elements are then ordered by a stable sort that only uses [<] on the
    keys.  With [reverse] every comparison is reversed, which keeps equal
    elements in their original order.  An exception of the key function or
    of a comparison propagates. *)

Fixpoint compute_keys {A B} (f : A → result B) (l : list A)
    : result (list B) :=
  match l with
  | [] => Ok []
  | x :: l' => y ← f x; ys ← compute_keys f l'; Ok (y :: ys)
  end.

Section Sort.
Context {K A : Type} (lt : K → K → result bool).

Fixpoint insertM (x : K * A) (l : list (K * A)) : result (list (K * A)) :=
  match l with
  | [] => Ok [x]
  | y :: l' =>
      b ← lt y.1 x.1;
      if b : bool then r ← insertM x l'; Ok (y :: r) else Ok (x :: y :: l')
  end.

Fixpoint sortM (l : list (K * A)) : result (list (K * A)) :=
  match l with
  | [] => Ok []
  | x :: l' => r ← sortM l'; insertM x r
  end.

(** [p] may stand before [q]: the key of [q] is not smaller. *)
Definition le_pair (p q : K * A) : Prop := lt q.1 p.1 = Ok false.

(** [p] ranks equal to the key [k0]. *)
Definition tied_pair (k0 : K) (p : K * A) : bool :=
  match lt p.1 k0, lt k0 p.1 with
  | Ok false, Ok false => true
  | _, _ => false
  end.
End Sort.

Definition cmp_lt (reverse : bool) (a b : value) : result bool :=
  if reverse then py_lt b a else py_lt a b.

Definition list_sort {A} (key : A → result value) (reverse : bool)
    (l : list A) : result (list A) :=
  keys ← compute_keys key l;
  r ← sortM (cmp_lt reverse) (zip keys l);
  Ok (r.*2).

(** What a sort by [key] establishes: [key_le key rev x y] says that [y] is
    not ranked strictly before [x], [key_tied key rev x0 x] that [x] and
    [x0] rank equal. *)
Definition key_le {A} (key : A → result value) (rev : bool) (x y : A) : Prop :=
  (a ← key x; b ← key y; cmp_lt rev b a) = Ok false.

Definition key_tied {A} (key : A → result value) (rev : bool) (x0 x : A)
    : bool :=
  match key x0, key x with
  | Ok a, Ok b =>
      match cmp_lt rev b a, cmp_lt rev a b with
      | Ok false, Ok false => true
      | _, _ => false
      end
  | _, _ => false
  end.

(** Two values of the same Python type. *)
Definition same_type (a b : value) : bool :=
  match a, b with
  | VInt _, VInt _ | VStr _, VStr _ => true
  | _, _ => false
  end.

End Py.
Export Py.

(** ** torrent_list.py: [TorrentListWalker] *)

(** One raw torrent object of the daemon's [torrent-get] answer. *)
Abbreviation torrent := (gmap string value).

Section Walker.
(** The row widget built for a torrent is presentation code.  The walker only
    stores it, so its type and its constructor (which may raise on a torrent
    it cannot render) are left open. *)
Context {widget : Type} (TorrentEntry : torrent → result widget).

Record TorrentListWalker := mkWalker {
  entries : dict (torrent * widget);
  order : list value;
  sorts : list (string * bool);
  focus : option value
}.

(** [__init__] *)
Definition init : TorrentListWalker :=
  {| entries := []; order := []; sorts := [("name", false)]; focus := None |}.

(** [__len__] *)
Definition len (w : TorrentListWalker) : nat := length (entries w).

(** [sort_key] and [sort_reversed]: [self.sorts[-1]] raises on an empty list. *)
Definition sort_key (w : TorrentListWalker) : result string :=
  match last (sorts w) with
  | Some se => Ok se.1
  | None => Raise IndexError
  end.

Definition sort_reversed (w : TorrentListWalker) : result bool :=
  match last (sorts w) with
  | Some se => Ok se.2
  | None => Raise IndexError
  end.

(** The key function of [_do_sort]: [self.entries[x][0][key]]. *)
Definition sort_field (es : dict (torrent * widget)) (key : string)
    (x : value) : result value :=
  e ← dict_get x es; getitem e.1 key.

(** [_do_sort], on the entries and the order it reads and overwrites. *)
Fixpoint do_sort (es : dict (torrent * widget)) (ss : list (string * bool))
    (o : list value) : result (list value) :=
  match ss with
  | [] => Ok o
  | (key, rev) :: ss' =>
      o' ← list_sort (sort_field es key) rev o; do_sort es ss' o'
  end.

(** The dict comprehension of [set_entries]: for each torrent the key
    [i['id']] is evaluated, then the value, then the pair is stored. *)
Fixpoint build_entries (tl : list torrent) (d : dict (torrent * widget))
    : result (dict (torrent * widget)) :=
  match tl with
  | [] => Ok d
  | i :: tl' =>
      k ← getitem i "id";
      wd ← TorrentEntry i;
      build_entries tl' (dict_set k (i, wd) d)
  end.

(** [x in l] for an optional identifier: [None] is never an element. *)
Definition focus_in (f : option value) (o : list value) : bool :=
  match f with
  | Some x => bool_decide (x ∈ o)
  | None => false
  end.

Definition set_entries (w : TorrentListWalker) (tl : list torrent)
    : result TorrentListWalker :=
  es ← build_entries tl [];
  o ← do_sort es (sorts w) (dict_keys es);
  let f :=
    match o with
    | [] => None
    | x :: _ => if focus_in (focus w) o then focus w else Some x
    end in
  Ok {| entries := es; order := o; sorts := sorts w; focus := f |}.

(** [while len(self.sorts) > 2: self.sorts.pop(0)] *)
Fixpoint evict (ss : list (string * bool)) : list (string * bool) :=
  match ss with
  | [] => []
  | _ :: ss' => if bool_decide (2 < length ss)%nat then evict ss' else ss
  end.

Definition set_sort (key : option string) (rev : option bool)
    (w : TorrentListWalker) : result TorrentListWalker :=
  k ← match key with Some k => Ok k | None => sort_key w end;
  r ← match rev with Some r => Ok r | None => sort_reversed w end;
  let ss := evict (sorts w ++ [(k, r)]) in
  o ← do_sort (entries w) ss (order w);
  Ok {| entries := entries w; order := o; sorts := ss; focus := focus w |}.

(** [set_focus] *)
Definition set_focus (position : value) (w : TorrentListWalker)
    : result TorrentListWalker :=
  if bool_decide (position ∈ order w) then
    Ok {| entries := entries w; order := order w; sorts := sorts w;
          focus := Some position |}
  else Raise IndexError.

(** [positions] *)
Definition positions (reverse : bool) (w : TorrentListWalker) : list value :=
  if reverse then rev (order w) else order w.

(** A run of [set_sort] calls, as the sort popup issues them. *)
Fixpoint set_sorts (calls : list (option string * option bool))
    (w : TorrentListWalker) : result TorrentListWalker :=
  match calls with
  | [] => Ok w
  | (key, rev) :: calls' => w' ← set_sort key rev w; set_sorts calls' w'
  end.

(** *** Predicates of the data model *)

(** [order] lists every key of [entries] exactly once. *)
Definition order_ok (w : TorrentListWalker) : Prop :=
  NoDup (order w) ∧ order w ≡ₚ dict_keys (entries w).

(** The identifiers occurring in a raw list. *)
Definition ids (tl : list torrent) : list value :=
  omap (λ t : torrent, t !! "id") tl.

(** Every torrent has field [k], and all these values have one type. *)
Definition field_ok (k : string) (tl : list torrent) : bool :=
  match tl with
  | [] => true
  | t0 :: _ =>
      match t0 !! k with
      | Some v0 =>
          forallb (λ t : torrent,
            match t !! k with Some v => same_type v0 v | None => false end) tl
      | None => false
      end
  end.

Definition renders (t : torrent) : bool :=
  match TorrentEntry t with Ok _ => true | Raise _ => false end.

(** A raw list is well formed for a sort history when every torrent has an
    identifier and can be rendered, and every field the history orders by is
    present throughout with values of one type. *)
Definition well_formed (ss : list (string * bool)) (tl : list torrent) : bool :=
  forallb (λ t : torrent, bool_decide (is_Some (t !! "id")) && renders t) tl
  && forallb (λ s : string * bool, field_ok s.1 tl) ss.

(** The orderings a sort criterion induces on identifiers. *)
Definition crit_le (es : dict (torrent * widget)) (s : string * bool)
    : value → value → Prop :=
  key_le (sort_field es s.1) s.2.

Definition crit_tied (es : dict (torrent * widget)) (s : string * bool)
    : value → value → bool :=
  key_tied (sort_field es s.1) s.2.

(** What the order looks like after [_do_sort] ran with the history [ss]:
    sorted by the newest criterion, and each group the newest criterion ranks
    equal sorted by the older one. *)
Definition sorted_by (es : dict (torrent * widget)) (ss : list (string * bool))
    (o : list value) : Prop :=
  match ss with
  | [s] => StronglySorted (crit_le es s) o
  | [s1; s2] =>
      StronglySorted (crit_le es s2) o ∧
      ∀ x0, StronglySorted (crit_le es s1) (filter (crit_tied es s2 x0) o)
  | _ => False
  end.

(** [x] ranks equal to [x0] under every criterion of the history. *)
Definition tied_all (es : dict (torrent * widget)) (ss : list (string * bool))
    (x0 x : value) : bool :=
  forallb (λ s, crit_tied es s x0 x) ss.

(** Every stored torrent has the field of [s], with values of one type. *)
Definition sortable (es : dict (torrent * widget)) (s : string * bool) : Prop :=
  ∃ v0, Forall (λ e, ∃ v, e.2.1 !! s.1 = Some v ∧ same_type v0 v) es.

End Walker.

Arguments TorrentListWalker widget : clear implicits.
Arguments init {widget}.

(** ** console.py *)

(** *** [RatesWidget]: the part driven by [update_time] *)

Inductive rates_view :=
| ShowCols        (* [self.cols]: the live rate figures *)
| ShowDelayMsg.   (* [self.delay_msg]: the staleness message *)

Record RatesWidget := mkRates {
  time_since_update : Q;
  delay_msg : string;
  rates_w : rates_view
}.

Definition rates_init : RatesWidget :=
  {| time_since_update := 0; delay_msg := ""; rates_w := ShowCols |}.

Definition update_time (time : Q) (rw : RatesWidget) : RatesWidget :=
  {| time_since_update := time;
     delay_msg := pretty (Qfloor time) +:+ "s ago";
     rates_w := if Qle_bool 5 time then ShowDelayMsg else ShowCols |}.

(** *** The callback bridge: [call_async_function] and [handle_callbacks]

    A work item is a producer, whose awaited result depends on the
    environment [E] it runs in, and a continuation on the user-interface
    state [S]. *)

Section Bridge.
Context {S V E : Type}.

Record work := mkWork {
  func : E → result V;
  callback : V → S → result S
}.

Inductive event :=
| Started (it : work)     (* [co = func()] *)
| Called (it : work)      (* [cb(rv)] entered *)
| Returned (it : work).   (* [cb(rv)] returned *)

Record bridge := mkBridge {
  queue : list work;          (* the memory channel *)
  running : option work;      (* the item [handle_callbacks] is awaiting *)
  failed : option exn;        (* the exception that ended [handle_callbacks] *)
  ui : S;
  submitted : list work;      (* history: every item ever sent *)
  log : list event            (* history: what the drain task did *)
}.

Definition bridge_init (s : S) : bridge :=
  {| queue := []; running := None; failed := None; ui := s;
     submitted := []; log := [] |}.

(** [send_nowait] on a channel of unbounded capacity. *)
Definition call_async_function (it : work) (b : bridge) : bridge :=
  {| queue := queue b ++ [it]; running := running b; failed := failed b;
     ui := ui b; submitted := submitted b ++ [it]; log := log b |}.

(** The drain task receives the next item and starts its producer. *)
Definition drain_begin (b : bridge) : option bridge :=
  match failed b, running b, queue b with
  | None, None, it :: q =>
      Some {| queue := q; running := Some it; failed := None; ui := ui b;
              submitted := submitted b; log := log b ++ [Started it] |}
  | _, _, _ => None
  end.

(** The awaited producer finishes in environment [e]; the continuation runs
    at once.  An exception of either leaves [handle_callbacks]. *)
Definition drain_end (e : E) (b : bridge) : option bridge :=
  match failed b, running b with
  | None, Some it =>
      match func it e with
      | Raise x =>
          Some {| queue := queue b; running := None; failed := Some x;
                  ui := ui b; submitted := submitted b; log := log b |}
      | Ok rv =>
          match callback it rv (ui b) with
          | Ok s' =>
              Some {| queue := queue b; running := None; failed := None;
                      ui := s'; submitted := submitted b;
                      log := log b ++ [Called it; Returned it] |}
          | Raise x =>
              Some {| queue := queue b; running := None; failed := Some x;
                      ui := ui b; submitted := submitted b;
                      log := log b ++ [Called it] |}
          end
      end
  | _, _ => None
  end.

(** One step of the system: the rendering side submits an item, or the drain
    task moves.  The interleaving is arbitrary, which covers every producer
    latency. *)
Inductive bridge_step : bridge → bridge → Prop :=
| step_submit it b : bridge_step b (call_async_function it b)
| step_begin b b' : drain_begin b = Some b' → bridge_step b b'
| step_end e b b' : drain_end e b = Some b' → bridge_step b b'.

(** The items whose continuation was entered, in order. *)
Definition called (l : list event) : list work :=
  omap (λ ev, match ev with Called it => Some it | _ => None end) l.

Definition started (l : list event) : list work :=
  omap (λ ev, match ev with Started it => Some it | _ => None end) l.

(** When a producer starts, the drain task is not inside an earlier item: the
    log so far is a run of complete [Started; Called; Returned] triples. *)
Fixpoint serial (l : list event) : Prop :=
  match l with
  | [] => True
  | [Started _] => True
  | [Started it; Called it'] => it = it'
  | Started it :: Called it' :: Returned it'' :: l' =>
      it = it' ∧ it = it'' ∧ serial l'
  | _ => False
  end.

(** The events of an item that ran to the end. *)
Definition triple (it : work) : list event :=
  [Started it; Called it; Returned it].

(** The shape every state of the bridge has: the items [done] ran to the
    end, [cur] is the item the drain task holds or failed on, if any, with
    its events [tail], and the rest still waits in the queue. *)
Definition bridge_inv (b : bridge) : Prop :=
  ∃ (done cur : list work) (tail : list event),
    log b = flat_map triple done ++ tail ∧
    submitted b = done ++ cur ++ queue b ∧
    ((running b = None ∧ failed b = None ∧ cur = [] ∧ tail = []) ∨
     (∃ it, running b = Some it ∧ failed b = None ∧
            cur = [it] ∧ tail = [Started it]) ∨
     (∃ it, running b = None ∧ is_Some (failed b) ∧ cur = [it] ∧
            (tail = [Started it] ∨ tail = [Started it; Called it]))).

End Bridge.

Arguments work : clear implicits.
Arguments event : clear implicits.
Arguments bridge : clear implicits.

(** *** [ConsoleMain] and [ConsoleToplevel] *)

Inductive frame_part := Header | Body | Footer.

#[global] Instance frame_part_eq_dec : EqDecision frame_part.
Proof. solve_decision. Defined.

(** What one awaited RPC call does: how long it takes and how it ends. *)
Inductive rpc (A : Type) :=
| Returns (dt : Q) (a : A)
| Fails (dt : Q) (e : exn).
Arguments Returns {A} dt a.
Arguments Fails {A} dt e.

(** The three calls of one poll round, as the daemon would answer them. *)
Record round := mkRound {
  get_torrents : rpc (list torrent);
  get_session : rpc torrent;
  get_session_stats : rpc torrent
}.

(** The [try] block of [update_data]: the calls are awaited one after the
    other, and the first exception ends the block.  The result carries the
    time that went by. *)
Definition fetch (rd : round) : Q * result (list torrent * torrent * torrent) :=
  match get_torrents rd with
  | Fails d1 e => (d1, Raise e)
  | Returns d1 r =>
      match get_session rd with
      | Fails d2 e => (d1 + d2, Raise e)%Q
      | Returns d2 ses =>
          match get_session_stats rd with
          | Fails d3 e => (d1 + d2 + d3, Raise e)%Q
          | Returns d3 stats => (d1 + d2 + d3, Ok (r, ses, stats))%Q
          end
      end
  end.

Definition poll_period : Q := 3.

(** [trio.sleep_until]: returns at the deadline, or at once when it has
    passed.  The result is the time at which the caller goes on. *)
Definition sleep_until (deadline now : Q) : Q :=
  if Qle_bool deadline now then now else deadline.
Definition tick_period : Q := 1 # 2.

Section Console.
(** Left open, as presentation code: the row widget, the detail window with
    its constructor and [set_data], and the header and footer texts with
    their [update] methods. *)
Context {widget detail_win chrome : Type}.
Context (TorrentEntry : torrent → result widget).
Context (TorrentDetailWindow : torrent → result detail_win).
Context (torrent_info : detail_win → torrent).
Context (set_data : torrent → detail_win → result detail_win).
Context (update_chrome :
  list torrent → torrent → torrent → Q → chrome → result chrome).

(** The state the rendering side owns.  Detail windows are objects: a
    callback keeps the window it was created for, whatever [_w] shows by the
    time it runs. *)
Record Console := mkConsole {
  data : TorrentListWalker widget;      (* [main.data] *)
  windows : gmap nat detail_win;        (* detail windows created so far *)
  shown : option nat;                   (* [main._w], [None] for the list *)
  fr_focus : frame_part;                (* [fr.focus_position] *)
  last_update : Q;
  rates : RatesWidget;                  (* [ftr.rates] *)
  texts : chrome
}.

Definition with_data (d : TorrentListWalker widget) (c : Console) : Console :=
  {| data := d; windows := windows c; shown := shown c;
     fr_focus := fr_focus c; last_update := last_update c; rates := rates c;
     texts := texts c |}.

(** The daemon, as [get_torrent_details] sees it. *)
Definition daemon := value → result (list torrent).

Abbreviation item := (work Console torrent daemon).
Abbreviation Toplevel := (bridge Console torrent daemon).

(** [get_torrent_details]: [rv[0]] of the answer. *)
Definition get_torrent_details (tid : value) (srv : daemon) : result torrent :=
  rv ← srv tid;
  match rv with
  | te :: _ => Ok te
  | [] => Raise IndexError
  end.

(** [jump_to_top]: assigning [view.focus_position] sets the walker's focus. *)
Definition jump_to_top (c : Console) : result Console :=
  if bool_decide (0 < len (data c))%nat then
    match positions false (data c) with
    | x :: _ => d ← set_focus x (data c); Ok (with_data d c)
    | [] => Raise StopIteration
    end
  else Ok c.

Definition jump_if_unfocused (c : Console) : result Console :=
  if decide (fr_focus c = Body) then Ok c else jump_to_top c.

(** The continuation of the refresh request: [dwin.set_data(te)]. *)
Definition refresh_cb (dwin : nat) (te : torrent) (c : Console)
    : result Console :=
  match windows c !! dwin with
  | Some win =>
      win' ← set_data te win;
      Ok {| data := data c; windows := <[dwin := win']> (windows c);
            shown := shown c; fr_focus := fr_focus c;
            last_update := last_update c; rates := rates c;
            texts := texts c |}
  | None => Raise (KeyError (VInt (Z.of_nat dwin)))
  end.

Definition render_torrents (tlist : list torrent) (t : Toplevel)
    : result Toplevel :=
  d ← set_entries TorrentEntry (data (ui t)) tlist;
  c ← jump_if_unfocused (with_data d (ui t));
  let t' := {| queue := queue t; running := running t; failed := failed t;
               ui := c; submitted := submitted t; log := log t |} in
  match shown c with
  | None => Ok t'
  | Some dwin =>
      match windows c !! dwin with
      | Some win =>
          tid ← getitem (torrent_info win) "id";
          Ok (call_async_function
                {| func := get_torrent_details tid;
                   callback := refresh_cb dwin |} t')
      | None => Raise (KeyError (VInt (Z.of_nat dwin)))
      end
  end.


(** [show_torrent_detail]: the continuation opens a new detail window.  The
    producer is a lambda, so [te['id']] is only evaluated when the drain task
    calls it. *)
Definition show_cb (te : torrent) (c : Console) : result Console :=
  win ← TorrentDetailWindow te;
  let n := fresh (dom (windows c)) in
  Ok {| data := data c; windows := <[n := win]> (windows c);
        shown := Some n; fr_focus := fr_focus c;
        last_update := last_update c; rates := rates c; texts := texts c |}.

Definition show_torrent_detail (te : torrent) (t : Toplevel) : Toplevel :=
  call_async_function
    {| func := λ srv, tid ← getitem te "id"; get_torrent_details tid srv;
       callback := show_cb |} t.

(** One iteration of the [while True] loop of [update_data], entered at
    time [it]: either the loop goes on, the next iteration entered at the
    given time, or an exception leaves the task. *)
Inductive poll_result :=
| Next (start : Q) (t : Toplevel)
| Crash (e : exn).

Definition update_data_iter (it : Q) (rd : round) (t : Toplevel)
    : poll_result :=
  match fetch rd with
  | (dt, Raise _) => Next (it + dt) t                        (* [continue] *)
  | (dt, Ok (r, ses, stats)) =>
      let ft := (it + dt)%Q in
      let c := ui t in
      let t1 := {| queue := queue t; running := running t; failed := failed t;
                   ui := {| data := data c; windows := windows c;
                            shown := shown c; fr_focus := fr_focus c;
                            last_update := ft; rates := rates c;
                            texts := texts c |};
                   submitted := submitted t; log := log t |} in
      match render_torrents r t1 with
      | Raise e => Crash e
      | Ok t2 =>
          let c2 := ui t2 in
          match update_chrome r stats ses (ft - it)%Q (texts c2) with
          | Raise e => Crash e
          | Ok tx =>
              Next (sleep_until (it + poll_period) ft)
                {| queue := queue t2; running := running t2;
                   failed := failed t2;
                   ui := {| data := data c2; windows := windows c2;
                            shown := shown c2; fr_focus := fr_focus c2;
                            last_update := last_update c2; rates := rates c2;
                            texts := tx |};
                   submitted := submitted t2; log := log t2 |}
          end
      end
  end.

(** One iteration of [track_update_time], entered at time [ct]; the next one
    is entered after the sleep. *)
Definition track_update_time_iter (ct : Q) (c : Console) : Q * Console :=
  ((ct + tick_period)%Q,
   {| data := data c; windows := windows c; shown := shown c;
      fr_focus := fr_focus c; last_update := last_update c;
      rates := update_time (ct - last_update c) (rates c);
      texts := texts c |}).

(** Whether a round fails: one of its three calls raises. *)
Definition round_fails (rd : round) : bool :=
  match fetch rd with
  | (_, Raise _) => true
  | (_, Ok _) => false
  end.

End Console.

(** ** Sample data *)

Module Demo.

(** A row widget reduced to its title line. *)
Definition row (t : torrent) : result string :=
  match getitem t "name" with
  | Ok (VStr s) => Ok s
  | Ok _ => Raise TypeError
  | Raise e => Raise e
  end.

Definition mk (i : Z) (name : string) (size : Z) : torrent :=
  <["id" := VInt i]> (<["name" := VStr name]> (<["size" := VInt size]> ∅)).

(** The three records of the sort example. *)
Definition recs : list torrent := [mk 1 "b" 5; mk 2 "a" 5; mk 3 "a" 3].

(** A raw list in which identifier 1 occurs twice. *)
Definition dups : list torrent :=
  [mk 1 "first" 10; mk 2 "other" 20; mk 1 "second" 30].

(** Detail windows that only hold their torrent; header and footer texts
    that hold the torrent count. *)
Definition open_win (te : torrent) : result torrent := Ok te.
Definition win_info (win : torrent) : torrent := win.
Definition win_set (te : torrent) (win : torrent) : result torrent := Ok te.
Definition count_text (tl : list torrent) (stats ses : torrent) (dur : Q)
    (old : nat) : result nat :=
  Ok (length tl).

Definition console0 : Console (widget := string) (detail_win := torrent) :=
  {| data := init; windows := ∅; shown := None; fr_focus := Header;
     last_update := 0; rates := rates_init; texts := 0%nat |}.

(** A round whose first call fails after a tenth of a second. *)
Definition refused : round :=
  {| get_torrents := Fails (1 # 10) (RemoteError "connection refused");
     get_session := Returns 0 ∅;
     get_session_stats := Returns 0 ∅ |}.

(** Work items over a counter: the continuation adds the produced number;
    the daemon is the number a producer reads. *)
Definition adds : work nat nat nat :=
  {| func := λ e, Ok e; callback := λ v s, Ok (s + v)%nat |}.

Definition doubles : work nat nat nat :=
  {| func := λ e, Ok (2 * e)%nat; callback := λ v s, Ok (s + v)%nat |}.

(** An item whose producer fails, and one whose continuation raises. *)
Definition bad : work nat nat nat :=
  {| func := λ _, Raise (RemoteError "boom");
     callback := λ v s, Ok (s + v)%nat |}.

Definition throws : work nat nat nat :=
  {| func := λ e, Ok e; callback := λ _ _, Raise TypeError |}.

(** [bad] and [adds] were submitted and the drain task holds [bad]. *)
Definition holding_bad : bridge nat nat nat :=
  {| queue := [adds]; running := Some bad; failed := None; ui := 0%nat;
     submitted := [bad; adds]; log := [Started bad] |}.

(** The state after [bad] has failed. *)
Definition after_bad : bridge nat nat nat :=
  {| queue := [adds]; running := None; failed := Some (RemoteError "boom");
     ui := 0%nat; submitted := [bad; adds]; log := [Started bad] |}.

(** [doubles] and [adds] were submitted in this order and both ran. *)
Definition drained : bridge nat nat nat :=
  {| queue := []; running := None; failed := None; ui := 9%nat;
     submitted := [doubles; adds];
     log := triple doubles ++ triple adds |}.

(** The walker as [__init__] leaves it. *)
Definition fresh : TorrentListWalker string := init.

(** A walker that shows [recs] and has the torrent 3 in focus. *)
Definition focused : TorrentListWalker string :=
  {| entries := [(VInt 3, (mk 3 "a" 3, "a"))]; order := [VInt 3];
     sorts := [("name", false)]; focus := Some (VInt 3) |}.

End Demo.

(** ** torrent_list.py: navigation and lookup *)

(** [l.index(x)]: the position of the first occurrence, [None] standing for
    the [ValueError] of an absent element. *)
Fixpoint list_index (x : value) (l : list value) : option nat :=
  match l with
  | [] => None
  | y :: l' => if decide (x = y) then Some 0%nat else S <$> list_index x l'
  end.

Section WalkerNav.
Context {widget : Type}.
Implicit Types (w : TorrentListWalker widget).

(** [__getitem__] *)
Definition walker_getitem (item : value) w : result widget :=
  e ← dict_get item (entries w); Ok e.2.

(** [next_position] *)
Definition next_position (position : value) w : result value :=
  match list_index position (order w) with
  | None => Raise IndexError
  | Some ind =>
      match order w !! (ind + 1)%nat with
      | Some rv => Ok rv
      | None => Raise IndexError
      end
  end.

(** [prev_position] *)
Definition prev_position (position : value) w : result value :=
  match list_index position (order w) with
  | None => Raise IndexError
  | Some ind =>
      if decide (ind = 0%nat) then Raise IndexError
      else match order w !! (ind - 1)%nat with
           | Some rv => Ok rv
           | None => Raise IndexError
           end
  end.

(** The focus is no dangling reference. *)
Definition focus_ok w : Prop :=
  match focus w with
  | Some f => f ∈ order w
  | None => True
  end.

(** [set_sort] calls with both arguments given. *)
Definition explicit (cs : list (string * bool))
    : list (option string * option bool) :=
  (λ c, (Some c.1, Some c.2)) <$> cs.

End WalkerNav.

(** What [set_entries] stores under a key: a torrent of the raw list that
    carries this identifier, with the widget built from it. *)
Definition row_of {widget} (TorrentEntry : torrent → result widget)
    (tl : list torrent) (e : value * (torrent * widget)) : Prop :=
  TorrentEntry e.2.1 = Ok e.2.2 ∧ e.2.1 ∈ tl ∧ e.2.1 !! "id" = Some e.1.

(** ** console.py: [ConsoleToplevel.keypress] *)

(** The emergency exit at the head of [keypress], which runs before the key
    is handed to the widgets: the time of the first of a run of [q] presses
    and their number. *)
Record quit_state := mkQuit {
  q_time : option Q;
  q_count : nat
}.

Definition quit_init : quit_state := {| q_time := None; q_count := 0 |}.

Inductive quit_result :=
| ExitMainLoop               (* [raise urwid.ExitMainLoop()] *)
| Go (s : quit_state).       (* the key goes on to the widgets *)

Definition keypress_quit (now : Q) (key : string) (s : quit_state)
    : quit_result :=
  let s1 :=
    match q_time s with
    | Some t0 =>
        if Qle_bool (now - t0) 5 then s else {| q_time := None; q_count := 0 |}
    | None => s
    end in
  if decide (key = "q") then
    let t := match q_time s1 with Some t0 => Some t0 | None => Some now end in
    let n := S (q_count s1) in
    if bool_decide (5 ≤ n)%nat then ExitMainLoop
    else Go {| q_time := t; q_count := n |}
  else Go s1.

(** A run of key presses, each with the time it arrives at; the run ends
    with the press that exits. *)
Fixpoint press_keys (evs : list (Q * string)) (s : quit_state) : quit_result :=
  match evs with
  | [] => Go s
  | (now, key) :: evs' =>
      match keypress_quit now key s with
      | ExitMainLoop => ExitMainLoop
      | Go s' => press_keys evs' s'
      end
  end.

Definition count_q (evs : list (Q * string)) : nat :=
  length (filter (λ ev, ev.2 = "q") evs).

Section Keys.
Context {widget detail_win chrome : Type}.
Implicit Types (c : Console (widget := widget) (detail_win := detail_win)
                      (chrome := chrome)).

Definition with_frame (p : frame_part) c : Console :=
  {| data := data c; windows := windows c; shown := shown c;
     fr_focus := p; last_update := last_update c; rates := rates c;
     texts := texts c |}.

(** The branch of [keypress] for [esc] coming back unhandled while the
    body has the frame focus. *)
Definition on_esc c : result Console :=
  jump_if_unfocused (with_frame Header c).

(** The branch for [down] coming back unhandled while the header has the
    frame focus: [next(self.main.data.positions())] raises on an empty
    list. *)
Definition on_down c : result Console :=
  let c1 := with_frame Body c in
  match positions false (data c1) with
  | x :: _ => d ← set_focus x (data c1); Ok (with_data d c1)
  | [] => Raise StopIteration
  end.

End Keys.

(** ** util.py *)

(** [l[i]] on a sequence: a negative index counts from the end. *)
Definition py_getitem {A} (l : list A) (i : Z) : result A :=
  let n := Z.of_nat (length l) in
  let j := if (i <? 0)%Z then (i + n)%Z else i in
  if ((0 <=? j) && (j <? n))%Z then
    match l !! Z.to_nat j with
    | Some x => Ok x
    | None => Raise IndexError
    end
  else Raise IndexError.

(** [byte_to_bits]: the bits of a byte, most significant first. *)
Definition byte_to_bits (b : Z) : list bool :=
  (λ mul, negb (Z.land b mul =? 0)%Z)
    <$> [0x80; 0x40; 0x20; 0x10; 0x08; 0x04; 0x02; 0x01]%Z.

(** [bytes_to_bits], and [Bitset.__iter__] on the bytes it holds. *)
Definition bytes_to_bits (b : list Z) : list bool :=
  b ≫= byte_to_bits.

(** [Bitset.__getitem__] *)
Definition bitset_getitem (bytes : list Z) (ind : Z) : result bool :=
  let bi := (ind `div` 8)%Z in
  let bit := (ind `mod` 8)%Z in
  val ← py_getitem bytes bi;
  let mask := Z.shiftr 0x80 bit in
  Ok (negb (Z.land val mask =? 0)%Z).

(** [Bitset.__len__] *)
Definition bitset_len (bytes : list Z) : Z := (Z.of_nat (length bytes) * 8)%Z.

(** Text markup as [urwid.Text] takes it: a plain string or a string with
    a display attribute. *)
Inductive markup :=
| Plain (s : string)
| Styled (style : option string) (s : string).

(** [make_underline_layout]; [None] stands for the [ValueError] of
    [text.index] when the character does not occur. *)
Definition make_underline_layout (text : string) (char_in : option string)
    (base_style : option string) (underline_style : string)
    : option (list markup) :=
  match char_in with
  | None => Some [Plain text]
  | Some ch =>
      ind ← String.index 0 ch text;
      Some [Styled base_style (String.substring 0 ind text);
            Styled (Some underline_style) (String.substring ind 1 text);
            Styled base_style
              (String.substring (ind + 1)
                 (String.length text - (ind + 1)) text)]
  end.

(** ** console.py: popups *)

Section Popup.
(** What a callback of a popup line does is left open. *)
Context {C : Type}.

Record PopupItem := mkItem {
  item_text : string;
  item_selectable : bool;
  trigger : option string;
  callback_of : option C;
  item_markup : list markup
}.

(** [PopupItem.__init__]; [inl] carries the message of the [ValueError]. *)
Definition popup_item (text : string) (trigger_char : option string)
    (callback : option C) : string + PopupItem :=
  let build :=
    match make_underline_layout text trigger_char None "underline" with
    | Some m =>
        inr {| item_text := text;
               item_selectable := bool_decide (is_Some trigger_char);
               trigger := trigger_char; callback_of := callback;
               item_markup := m |}
    | None => inl "substring not found"
    end in
  match trigger_char with
  | Some ch =>
      if negb (String.length ch =? 1)%nat then
        inl "trigger_char must be one character"
      else if bool_decide (String.index 0 ch text = None) then
        inl "trigger_char must be in value"
      else if bool_decide (callback = None) then
        inl "callback must be set if trigger_char set"
      else build
  | None => build
  end.

End Popup.

Arguments PopupItem C : clear implicits.

(** [str.lower] on the characters with code points below 256. *)
Definition lower_char (a : ascii) : ascii :=
  let n := nat_of_ascii a in
  if bool_decide (65 ≤ n ≤ 90 ∨ 192 ≤ n ≤ 214 ∨ 216 ≤ n ≤ 222)%nat
  then ascii_of_nat (n + 32) else a.

Fixpoint lower (s : string) : string :=
  match s with
  | EmptyString => EmptyString
  | String a s' => String (lower_char a) (lower s')
  end.

Section PopupWindow.
Context {C : Type}.

(** The loop of [PopupWindow.__init__] that fills [all_triggers]. *)
Fixpoint all_triggers (lines : list (PopupItem C))
    (d : dict (PopupItem C)) : string + dict (PopupItem C) :=
  match lines with
  | [] => inr d
  | l :: lines' =>
      match trigger l with
      | None => all_triggers lines' d
      | Some tr =>
          let lt := VStr (lower tr) in
          if bool_decide (lt ∈ dict_keys d) then
            inl "trigger char may not be repeated"
          else all_triggers lines' (dict_set lt l d)
      end
  end.

(** The lowercased triggers of the lines that have one. *)
Definition triggers_of (lines : list (PopupItem C)) : list value :=
  omap (λ l, (λ tr, VStr (lower tr)) <$> trigger l) lines.

End PopupWindow.

(** [SortControlWindow]: the lines of the popup, with the field each one
    sorts by; the last line toggles the direction. *)
Definition sort_orders : list (string * string * string) :=
  [("Name", "N", "name"); ("Age", "A", "addedDate");
   ("Progress", "P", "percentDone"); ("Seeds", "S", "seeders");
   ("Leeches", "c", "leechers"); ("Size", "z", "sizeWhenDone");
   ("Status", "t", "status"); ("Uploaded", "l", "uploadedEver");
   ("Upload Speed", "U", "rateUpload");
   ("Download Speed", "D", "rateDownload"); ("Ratio", "R", "uploadRatio");
   ("Peers", "e", "peersConnected"); ("Location", "o", "downloadDir")].

(** What a line of the sort popup calls: [set_sort(k, None)], or
    [set_sort(None, not sort_reversed)] for the last line. *)
Inductive sort_action :=
| SortBy (k : string)
| ToggleReverse.

(** The items [SortControlWindow.__init__] builds, or the first error. *)
Fixpoint build_items (specs : list (string * string * sort_action))
    : string + list (PopupItem sort_action) :=
  match specs with
  | [] => inr []
  | (text, ch, act) :: specs' =>
      match popup_item text (Some ch) (Some act) with
      | inl e => inl e
      | inr it =>
          match build_items specs' with
          | inl e => inl e
          | inr its => inr (it :: its)
          end
      end
  end.

Definition sort_control_window
    : string + (list (PopupItem sort_action) * dict (PopupItem sort_action)) :=
  match build_items
          (((λ o, (o.1.1, o.1.2, SortBy o.2)) <$> sort_orders)
           ++ [("Reverse", "v", ToggleReverse)]) with
  | inl e => inl e
  | inr items =>
      match all_triggers items [] with
      | inl e => inl e
      | inr d => inr (items, d)
      end
  end.


(** ** rpc.py *)

(** What can end a request: the [RPCError] of [raise_for_result], the bad
    status [raise_for_status] reports, a failure of the transport or of
    decoding, or a Python exception of the code itself. *)
Inductive rpc_error :=
| RPCError (msg : string)
| BadStatus (code : Z)
| TransportError
| DecodeError
| PyError (e : exn).

Section Rpc.
(** The type of the [arguments] member of an answer is left open. *)
Context {A : Type}.

(** The decoded body of an answer. *)
Record reply := mkReply {
  reply_result : option value;       (* [rv['result']] *)
  reply_arguments : A
}.

Record response := mkResponse {
  status_code : Z;
  session_header : option string;    (* [X-Transmission-Session-Id] *)
  body : option reply                (* [r.json()], [None] when it raises *)
}.

(** [raise_for_result] *)
Definition raise_for_result (rv : reply) : rpc_error + unit :=
  match reply_result rv with
  | None => inl (PyError (KeyError (VStr "result")))
  | Some (VStr s) =>
      if decide (s = "success") then inr tt
      else inl (RPCError ("Error: " +:+ s))
  | Some (VInt _) => inl (PyError TypeError)
  end.

(** The end of [send_request]: [raise_for_status], [r.json()],
    [raise_for_result]. *)
Definition finish_request (r : response) : rpc_error + reply :=
  if ((400 <=? status_code r) && (status_code r <? 600))%Z then
    inl (BadStatus (status_code r))
  else
    match body r with
    | None => inl DecodeError
    | Some rv =>
        match raise_for_result rv with
        | inl e => inl e
        | inr _ => inr rv
        end
    end.

(** The session header a request carries: none while [sess_id] is unset or
    empty. *)
Definition header_of (sess_id : option string) : option string :=
  match sess_id with
  | Some s => if decide (s = "") then None else Some s
  | None => None
  end.

(** [send_request], against a server that answers a request according to
    the session header it carries.  The result is the [sess_id] afterwards,
    the number of requests posted, and the answer or the error. *)
Definition send_request (post : option string → rpc_error + response)
    (sess_id : option string) : option string * nat * (rpc_error + reply) :=
  match post (header_of sess_id) with
  | inl e => (sess_id, 1%nat, inl e)
  | inr r =>
      if (status_code r =? 409)%Z then
        match session_header r with
        | None =>
            (sess_id, 1%nat,
             inl (PyError (KeyError (VStr "X-Transmission-Session-Id"))))
        | Some s =>
            match post (header_of (Some s)) with
            | inl e => (Some s, 2%nat, inl e)
            | inr r2 => (Some s, 2%nat, finish_request r2)
            end
        end
      else (sess_id, 1%nat, finish_request r)
  end.

(** A daemon with CSRF protection: it answers 409 with the session
    identifier [s] unless the request carries [s], and [r] when it does. *)
Definition csrf_server (s : string) (r : response)
    (hdr : option string) : rpc_error + response :=
  if decide (hdr = Some s) then inr r
  else inr {| status_code := 409; session_header := Some s; body := None |}.

End Rpc.

Arguments reply A : clear implicits.
Arguments response A : clear implicits.

(** ** More sample data *)

(** ** Outcome tests

    Boolean views of the three outcome types, used to run a model on sample
    data without writing its whole result down. *)

Definition is_ok {A} (r : result A) : bool :=
  match r with Ok _ => true | Raise _ => false end.

Definition is_right {A B} (s : A + B) : bool :=
  match s with inr _ => true | inl _ => false end.

Definition is_next {W D C} (p : @poll_result W D C) : bool :=
  match p with Next _ _ => true | Crash _ => false end.

Module Demo2.

(** The walker after the first reconcile of [Demo.recs]. *)
Definition listed : TorrentListWalker string :=
  {| entries := [(VInt 1, (Demo.mk 1 "b" 5, "b"));
                 (VInt 2, (Demo.mk 2 "a" 5, "a"));
                 (VInt 3, (Demo.mk 3 "a" 3, "a"))];
     order := [VInt 2; VInt 3; VInt 1];
     sorts := [("name", false)];
     focus := Some (VInt 2) |}.

(** Three sort orders chosen one after the other. *)
Definition choices : list (string * bool) :=
  [("size", false); ("name", false); ("size", true)].

(** A console that shows the detail window of torrent 2 over the list. *)
Definition with_detail : Console (widget := string) (detail_win := torrent) :=
  {| data := listed; windows := {[ 0%nat := Demo.mk 2 "a" 5 ]};
     shown := Some 0%nat; fr_focus := Header; last_update := 0;
     rates := rates_init; texts := 3%nat |}.

(** A console with the cursor in the list. *)
Definition browsing : Console (widget := string) (detail_win := torrent)
                        (chrome := nat) :=
  {| data := listed; windows := ∅; shown := None; fr_focus := Body;
     last_update := 0; rates := rates_init; texts := 3%nat |}.

(** A round that is answered within four tenths of a second. *)
Definition answered : round :=
  {| get_torrents := Returns (1 # 5) Demo.recs;
     get_session := Returns (1 # 10) ∅;
     get_session_stats := Returns (1 # 10) ∅ |}.

(** A round whose answer lacks the name of a torrent. *)
Definition nameless : round :=
  {| get_torrents := Returns (1 # 5) [<["id" := VInt 7]> ∅];
     get_session := Returns (1 # 10) ∅;
     get_session_stats := Returns (1 # 10) ∅ |}.

(** A daemon that knows torrent 2 only. *)
Definition knows_two : daemon :=
  λ tid, if decide (tid = VInt 2) then Ok [Demo.mk 2 "a" 5] else Ok [].

(** Key presses: four [q] with other keys in between, within four seconds. *)
Definition hammering : list (Q * string) :=
  [(1, "down"); (2, "q"); (2, "x"); (3, "q"); (4, "q")]%Q.

(** The lines of a popup with two triggers that differ in case only. *)
Definition clashing : list (PopupItem nat) :=
  [{| item_text := "Name"; item_selectable := true; trigger := Some "N";
      callback_of := Some 1%nat; item_markup := [] |};
   {| item_text := "none"; item_selectable := true; trigger := Some "n";
      callback_of := Some 2%nat; item_markup := [] |}].

(** An answer of the daemon that reports success. *)
Definition fine : response nat :=
  {| status_code := 200; session_header := None;
     body := Some {| reply_result := Some (VStr "success");
                     reply_arguments := 0%nat |} |}.

End Demo2.

(** * Properties *)

(** ** The stable sort *)

Lemma bind_Ok {A B} (m : result A) (f : A → result B) (b : B) :
  m ≫= f = Ok b → ∃ a, m = Ok a ∧ f a = Ok b.
Proof. destruct m as [a|e]; simpl; [eauto | discriminate]. Qed.

Ltac inv_bind H :=
  let a := fresh "a" in
  let Ha := fresh "Ha" in
  apply bind_Ok in H; destruct H as (a & Ha & H).

Section SortFacts.
Context {K A : Type} (lt : K → K → result bool).
Hypothesis lt_asym : ∀ a b, lt a b = Ok true → lt b a = Ok false.
Hypothesis lt_neg_trans :
  ∀ a b c, lt b a = Ok false → lt c b = Ok false → lt c a = Ok false.

Lemma insertM_perm (x : K * A) l r : insertM lt x l = Ok r → r ≡ₚ x :: l.
Proof.
  revert r. induction l as [|y l IH]; intros r H; simpl in H.
  - by injection H as <-.
  - inv_bind H. destruct a.
    + inv_bind H. injection H as <-. rewrite (IH _ Ha0). apply Permutation_swap.
    + by injection H as <-.
Qed.

Lemma sortM_perm (l : list (K * A)) r : sortM lt l = Ok r → r ≡ₚ l.
Proof.
  revert r. induction l as [|x l IH]; intros r H; simpl in H.
  - by injection H as <-.
  - inv_bind H. rewrite (insertM_perm _ _ _ H). by rewrite (IH _ Ha).
Qed.

Lemma insertM_sorted (x : K * A) l r :
  StronglySorted (le_pair lt) l → insertM lt x l = Ok r → StronglySorted (le_pair lt) r.
Proof.
  revert r. induction l as [|y l IH]; intros r Hs H; simpl in H.
  - injection H as <-. repeat constructor.
  - apply StronglySorted_inv in Hs as [Hs Hy]. inv_bind H. destruct a.
    + inv_bind H. injection H as <-. constructor; [by eapply IH|].
      apply insertM_perm in Ha0. rewrite Ha0. constructor; [|done].
      by apply lt_asym.
    + injection H as <-. constructor; [by constructor|].
      constructor; [done|].
      eapply Forall_impl; [exact Hy|]. intros z Hz. unfold le_pair in *.
      by eapply lt_neg_trans.
Qed.

Lemma sortM_sorted (l : list (K * A)) r : sortM lt l = Ok r → StronglySorted (le_pair lt) r.
Proof.
  revert r. induction l as [|x l IH]; intros r H; simpl in H.
  - injection H as <-. constructor.
  - inv_bind H. eapply insertM_sorted; [|done]. by apply IH.
Qed.

Lemma tied_pair_not_lt k0 (x y : K * A) :
  tied_pair lt k0 x → tied_pair lt k0 y → lt y.1 x.1 = Ok false.
Proof.
  unfold tied_pair. intros Hx Hy.
  destruct (lt x.1 k0) as [[]|] eqn:E1; try done.
  destruct (lt k0 x.1) as [[]|] eqn:E2; try done.
  destruct (lt y.1 k0) as [[]|] eqn:E3; try done.
  destruct (lt k0 y.1) as [[]|] eqn:E4; try done.
  by eapply lt_neg_trans.
Qed.

(** Stability: elements that rank equal keep their relative order. *)
Lemma insertM_stable k0 (x : K * A) l r :
  insertM lt x l = Ok r →
  filter (tied_pair lt k0) r = filter (tied_pair lt k0) (x :: l).
Proof.
  revert r. induction l as [|y l IH]; intros r H; simpl in H.
  - by injection H as <-.
  - inv_bind H. destruct a; [|by injection H as <-].
    inv_bind H. injection H as <-.
    rewrite filter_cons, (IH _ Ha0), !filter_cons.
    destruct (decide (tied_pair lt k0 y)) as [Hy|]; [|done].
    destruct (decide (tied_pair lt k0 x)) as [Hx|]; [|done].
    rewrite (tied_pair_not_lt _ _ _ Hx Hy) in Ha. discriminate.
Qed.

Lemma sortM_stable k0 (l : list (K * A)) r :
  sortM lt l = Ok r → filter (tied_pair lt k0) r = filter (tied_pair lt k0) l.
Proof.
  revert r. induction l as [|x l IH]; intros r H; simpl in H.
  - by injection H as <-.
  - inv_bind H. rewrite (insertM_stable _ _ _ _ H), !filter_cons.
    by rewrite (IH _ Ha).
Qed.

(** The sort completes on keys that are pairwise comparable. *)
Lemma insertM_total (P : K → Prop) (x : K * A) l :
  (∀ a b, P a → P b → ∃ v, lt a b = Ok v) →
  P x.1 → Forall (λ p, P p.1) l → ∃ r, insertM lt x l = Ok r.
Proof.
  intros HP Hx. induction l as [|y l IH]; intros Hl; simpl; [eauto|].
  apply Forall_cons in Hl as [Hy Hl].
  destruct (HP _ _ Hy Hx) as [[] ->]; simpl; [|eauto].
  destruct (IH Hl) as [r ->]. simpl. eauto.
Qed.

Lemma sortM_total (P : K → Prop) (l : list (K * A)) :
  (∀ a b, P a → P b → ∃ v, lt a b = Ok v) →
  Forall (λ p, P p.1) l → ∃ r, sortM lt l = Ok r.
Proof.
  intros HP. induction l as [|x l IH]; intros Hl; simpl; [eauto|].
  apply Forall_cons in Hl as [Hx Hl]. destruct (IH Hl) as [r Hr].
  rewrite Hr. simpl. eapply insertM_total; [done..|].
  apply sortM_perm in Hr. by rewrite Hr.
Qed.

End SortFacts.

(** ** Python's [<] on the modelled values *)

Lemma string_ltb_asym s t : String.ltb s t = true → String.ltb t s = false.
Proof.
  unfold String.ltb. rewrite (String.compare_antisym t s).
  by destruct (String.compare s t).
Qed.

Lemma string_ltb_neg_trans a b c :
  String.ltb b a = false → String.ltb c b = false → String.ltb c a = false.
Proof.
  unfold String.ltb. intros Hba Hcb.
  destruct (String.compare c a) eqn:Hca; try done.
  apply String_as_OT.cmp_lt in Hca.
  assert (b = a ∨ String_as_OT.lt a b) as Hab.
  { destruct (String.compare b a) eqn:E; try done.
    - left. by apply String_as_OT.cmp_eq.
    - right. apply String_as_OT.cmp_lt. unfold String_as_OT.cmp.
      rewrite String.compare_antisym, E. done. }
  assert (c = b ∨ String_as_OT.lt b c) as Hbc.
  { destruct (String.compare c b) eqn:E; try done.
    - left. by apply String_as_OT.cmp_eq.
    - right. apply String_as_OT.cmp_lt. unfold String_as_OT.cmp.
      rewrite String.compare_antisym, E. done. }
  exfalso. apply (String_as_OT.lt_not_eq c c); [|done].
  destruct Hab as [->|Hab], Hbc as [->|Hbc]; eauto using String_as_OT.lt_trans.
Qed.

Lemma py_lt_asym a b : py_lt a b = Ok true → py_lt b a = Ok false.
Proof.
  destruct a, b; simpl; try done; intros [= H]; f_equal.
  - lia.
  - by apply string_ltb_asym.
Qed.

Lemma py_lt_neg_trans a b c :
  py_lt b a = Ok false → py_lt c b = Ok false → py_lt c a = Ok false.
Proof.
  destruct a, b, c; simpl; try done; intros [= H1] [= H2]; f_equal.
  - lia.
  - by eapply string_ltb_neg_trans.
Qed.

Lemma cmp_lt_asym rev a b :
  cmp_lt rev a b = Ok true → cmp_lt rev b a = Ok false.
Proof. destruct rev; apply py_lt_asym. Qed.

Lemma cmp_lt_neg_trans rev a b c :
  cmp_lt rev b a = Ok false → cmp_lt rev c b = Ok false →
  cmp_lt rev c a = Ok false.
Proof. destruct rev; simpl; eauto using py_lt_neg_trans. Qed.

Lemma cmp_lt_total rev a b :
  same_type a b → ∃ v, cmp_lt rev a b = Ok v.
Proof. destruct rev, a, b; simpl; try done; eauto. Qed.

Lemma cmp_lt_same_type rev a b v : cmp_lt rev a b = Ok v → same_type a b.
Proof. destruct rev, a, b; simpl; try done. Qed.

(** ** [list.sort] *)

Section ListSort.
Context {A : Type} (key : A → result value) (rev : bool).

Lemma compute_keys_Ok (l : list A) ks :
  compute_keys key l = Ok ks → Forall2 (λ x k, key x = Ok k) l ks.
Proof.
  revert ks. induction l as [|x l IH]; intros ks H; simpl in H.
  - injection H as <-. constructor.
  - inv_bind H. inv_bind H. injection H as <-. constructor; eauto.
Qed.

Lemma compute_keys_total (P : value → Prop) (l : list A) :
  Forall (λ x, ∃ k, key x = Ok k ∧ P k) l →
  ∃ ks, compute_keys key l = Ok ks ∧ Forall P ks.
Proof.
  induction 1 as [|x l (k & Hk & HP) _ (ks & Hks & HPs)]; simpl; [eauto|].
  rewrite Hk, Hks. simpl. eauto.
Qed.

Lemma zip_keys (l : list A) ks :
  Forall2 (λ x k, key x = Ok k) l ks →
  (zip ks l).*2 = l ∧ Forall (λ p, key p.2 = Ok p.1) (zip ks l).
Proof.
  induction 1 as [|x k l ks Hx _ [IH1 IH2]]; [done|].
  split; [csimpl; by rewrite IH1|by constructor].
Qed.

Lemma sorted_pairs (r : list (value * A)) :
  Forall (λ p, key p.2 = Ok p.1) r →
  StronglySorted (le_pair (cmp_lt rev)) r →
  StronglySorted (key_le key rev) (r.*2).
Proof.
  intros Hk Hs. induction Hs as [|p r Hs IH Hp]; simpl; [constructor|].
  apply Forall_cons in Hk as [Hp1 Hk]. constructor; [by apply IH|].
  apply Forall_fmap. rewrite Forall_forall in Hk, Hp. apply Forall_forall.
  intros q Hq. unfold key_le, le_pair in *. simpl.
  rewrite Hp1, (Hk _ Hq). simpl. by apply Hp.
Qed.

Lemma filter_pairs x0 k0 (r : list (value * A)) :
  key x0 = Ok k0 → Forall (λ p, key p.2 = Ok p.1) r →
  filter (key_tied key rev x0) (r.*2) = (filter (tied_pair (cmp_lt rev) k0) r).*2.
Proof.
  intros H0. induction 1 as [|p r Hp _ IH]; [done|].
  rewrite fmap_cons, !filter_cons, IH.
  assert (key_tied key rev x0 p.2 = tied_pair (cmp_lt rev) k0 p) as Heq.
  { unfold key_tied, tied_pair. by rewrite H0, Hp. }
  rewrite Heq. by destruct (tied_pair (cmp_lt rev) k0 p).
Qed.

Lemma filter_untied x0 e (l : list A) :
  key x0 = Raise e → filter (key_tied key rev x0) l = [].
Proof.
  intros H0. induction l as [|x l IH]; [done|].
  rewrite filter_cons_False; [done|]. unfold key_tied. rewrite H0. intros [].
Qed.

(** The result is a permutation of the list, ordered by the keys, and elements
    with equal keys are in their original order. *)
Lemma list_sort_spec (l r : list A) :
  list_sort key rev l = Ok r →
  r ≡ₚ l ∧ StronglySorted (key_le key rev) r ∧
  ∀ x0, filter (key_tied key rev x0) r = filter (key_tied key rev x0) l.
Proof.
  unfold list_sort. intros H. inv_bind H. inv_bind H. injection H as <-.
  apply compute_keys_Ok, zip_keys in Ha as [Hl Hk].
  pose proof (sortM_perm _ _ _ Ha0) as Hperm.
  assert (Forall (λ p, key p.2 = Ok p.1) a0) as Hk' by by rewrite Hperm.
  split_and!.
  - by rewrite Hperm, Hl.
  - apply sorted_pairs; [done|].
    eapply sortM_sorted; eauto using cmp_lt_asym, cmp_lt_neg_trans.
  - intros x0. destruct (key x0) as [k0|e] eqn:E0.
    + rewrite (filter_pairs _ _ _ E0 Hk'), <-Hl at 1.
      rewrite (filter_pairs _ _ _ E0 Hk). f_equal.
      eapply sortM_stable; eauto using cmp_lt_neg_trans.
    + by rewrite !(filter_untied _ _ _ E0).
Qed.

(** The sort completes when every key exists and all keys have one type. *)
Lemma list_sort_total (v0 : value) (l : list A) :
  Forall (λ x, ∃ k, key x = Ok k ∧ same_type v0 k) l →
  ∃ r, list_sort key rev l = Ok r.
Proof.
  intros H. apply compute_keys_total in H as (ks & Hks & HP).
  unfold list_sort. rewrite Hks. simpl.
  destruct (sortM_total (A:=A) (cmp_lt rev) (λ k, same_type v0 k) (zip ks l))
    as [r ->]; [| |simpl; eauto].
  - intros a b Ha Hb. apply cmp_lt_total. by destruct v0, a, b.
  - clear Hks. revert l. induction HP; intros [|??]; simpl; constructor; eauto.
Qed.

End ListSort.

(** ** Dictionaries *)

Section DictFacts.
Context {V : Type}.
Implicit Types (d : dict V) (k x : value) (v : V).

Lemma elem_of_dict_set k v d x :
  x ∈ dict_keys (dict_set k v d) ↔ x = k ∨ x ∈ dict_keys d.
Proof.
  unfold dict_keys. induction d as [|[k' v'] d IH]; csimpl.
  - set_solver.
  - destruct (decide (k = k')) as [->|]; csimpl; set_solver.
Qed.

Lemma NoDup_dict_set k v d :
  NoDup (dict_keys d) → NoDup (dict_keys (dict_set k v d)).
Proof.
  unfold dict_keys. induction d as [|[k' v'] d IH]; csimpl; intros Hd.
  - apply NoDup_singleton.
  - destruct (decide (k = k')) as [->|Hne]; csimpl; [done|].
    apply NoDup_cons in Hd as [Hk' Hd]. apply NoDup_cons. split; [|by apply IH].
    intros [|]%elem_of_dict_set; [congruence|by apply Hk'].
Qed.

Lemma Forall_dict_set (P : value * V → Prop) k v d :
  (∀ k', P (k', v)) → Forall P d → Forall P (dict_set k v d).
Proof.
  intros Hv. induction 1 as [|[k' v'] d Hp Hd IH]; simpl.
  - by repeat constructor.
  - destruct (decide (k = k')); constructor; eauto.
Qed.

Lemma dict_get_set_eq k v d : dict_get k (dict_set k v d) = Ok v.
Proof.
  induction d as [|[k' v'] d IH]; simpl.
  - by rewrite decide_True.
  - destruct (decide (k = k')) as [->|Hne]; simpl.
    + by rewrite decide_True.
    + by rewrite decide_False.
Qed.

Lemma dict_get_set_ne k k' v d :
  k ≠ k' → dict_get k' (dict_set k v d) = dict_get k' d.
Proof.
  intros Hne. induction d as [|[k'' v''] d IH]; simpl.
  - by rewrite decide_False.
  - destruct (decide (k = k'')) as [->|Hne']; simpl; [|by rewrite IH].
    by rewrite !decide_False.
Qed.

Lemma dict_get_elem x d :
  x ∈ dict_keys d → ∃ v, dict_get x d = Ok v ∧ (x, v) ∈ d.
Proof.
  unfold dict_keys. induction d as [|[k' v'] d IH]; csimpl.
  - by intros ?%elem_of_nil.
  - intros Hx. destruct (decide (x = k')) as [->|Hne].
    + exists v'. split; [done|]. left.
    + apply elem_of_cons in Hx as [?|Hx]; [done|].
      destruct (IH Hx) as (v & Hv & Hin). exists v. split; [done|by right].
Qed.

End DictFacts.

Lemma StronglySorted_filter {A} (R : relation A) (P : A → Prop)
    `{∀ x, Decision (P x)} (l : list A) :
  StronglySorted R l → StronglySorted R (filter P l).
Proof.
  induction 1 as [|x l Hs IH Hx]; [constructor|].
  rewrite filter_cons. destruct (decide (P x)); [|done].
  constructor; [done|]. apply Forall_forall. intros y [_ Hy]%list_elem_of_filter.
  rewrite Forall_forall in Hx. by apply Hx.
Qed.

(** ** The list walker *)

Section WalkerFacts.
Context {widget : Type} (TorrentEntry : torrent → result widget).
Implicit Types (w : TorrentListWalker widget) (tl : list torrent).
Implicit Types (es d : dict (torrent * widget)) (o : list value).
Implicit Types (ss : list (string * bool)) (s : string * bool).

Lemma elem_of_ids tl x : x ∈ ids tl ↔ ∃ t, t ∈ tl ∧ t !! "id" = Some x.
Proof. unfold ids. rewrite list_elem_of_omap. naive_solver. Qed.

Lemma ids_cons t tl :
  ids (t :: tl) = match t !! "id" with Some k => k :: ids tl | None => ids tl end.
Proof. done. Qed.

Lemma build_entries_keys tl d es :
  build_entries TorrentEntry tl d = Ok es →
  NoDup (dict_keys d) →
  NoDup (dict_keys es) ∧ ∀ x, x ∈ dict_keys es ↔ x ∈ dict_keys d ∨ x ∈ ids tl.
Proof.
  revert d. induction tl as [|t tl IH]; intros d H Hd; simpl in H.
  - injection H as <-. split; [done|]. intros x. rewrite elem_of_nil. tauto.
  - inv_bind H. inv_bind H. unfold getitem in Ha.
    destruct (t !! "id") as [k|] eqn:Hk; [|done]. injection Ha as <-.
    destruct (IH _ H (NoDup_dict_set _ _ _ Hd)) as [Hnd Hel].
    split; [done|]. intros x. rewrite Hel, elem_of_dict_set, ids_cons, Hk.
    rewrite elem_of_cons. tauto.
Qed.

Lemma build_entries_Forall (P : torrent → Prop) tl d es :
  build_entries TorrentEntry tl d = Ok es →
  Forall (λ e, P e.2.1) d → Forall P tl → Forall (λ e, P e.2.1) es.
Proof.
  revert d. induction tl as [|t tl IH]; intros d H Hd Htl; simpl in H.
  - by injection H as <-.
  - inv_bind H. inv_bind H. apply Forall_cons in Htl as [Ht Htl].
    eapply IH; [done| |done]. by apply Forall_dict_set.
Qed.

Lemma build_entries_total tl d :
  forallb (λ t : torrent,
    bool_decide (is_Some (t !! "id")) && renders TorrentEntry t) tl →
  ∃ es, build_entries TorrentEntry tl d = Ok es.
Proof.
  revert d. induction tl as [|t tl IH]; intros d H; simpl in *; [eauto|].
  apply andb_True in H as [[Hid Hr]%andb_True H].
  apply bool_decide_unpack in Hid as [k Hk]. unfold getitem. rewrite Hk. simpl.
  unfold renders in Hr. destruct (TorrentEntry t) as [wd|]; [|done]. simpl.
  by apply IH.
Qed.

(** The record stored for an identifier is the last one of the raw list
    that carries it. *)
Lemma build_entries_last tl d es k :
  build_entries TorrentEntry tl d = Ok es →
  match last (filter (λ t : torrent, t !! "id" = Some k) tl) with
  | Some t => ∃ wd, dict_get k es = Ok (t, wd)
  | None => dict_get k es = dict_get k d
  end.
Proof.
  revert d. induction tl as [|t tl IH]; intros d H; simpl in H.
  - by injection H as <-.
  - inv_bind H. inv_bind H. unfold getitem in Ha.
    destruct (t !! "id") as [k'|] eqn:Hk; [|done]. injection Ha as <-.
    specialize (IH _ H). rewrite filter_cons.
    destruct (decide (t !! "id" = Some k)) as [Heq|Hne].
    + assert (k' = k) as -> by congruence.
      destruct (filter _ tl) as [|t' l'] eqn:Hf.
      * simpl in *. rewrite IH, dict_get_set_eq. eauto.
      * rewrite last_cons. destruct (last (t' :: l')); [done|].
        rewrite IH, dict_get_set_eq. eauto.
    + destruct (last _); [done|]. rewrite IH.
      apply dict_get_set_ne. congruence.
Qed.

Lemma field_ok_spec (k : string) tl :
  field_ok k tl →
  ∃ v0, Forall (λ t : torrent, ∃ v, t !! k = Some v ∧ same_type v0 v) tl.
Proof.
  unfold field_ok. destruct tl as [|t0 tl0]; [exists (VInt 0); constructor|].
  destruct (t0 !! k) as [v0|]; [|done]. generalize (t0 :: tl0). clear.
  intros l H. exists v0. induction l as [|t l IH]; [constructor|].
  simpl in H. apply andb_True in H as [Ht H]. constructor; [|by apply IH].
  destruct (t !! k); [eauto|done].
Qed.

(** *** [_do_sort] *)

Lemma do_sort_perm es ss o o' : do_sort es ss o = Ok o' → o' ≡ₚ o.
Proof.
  revert o. induction ss as [|[key rev] ss IH]; intros o H; simpl in H.
  - by injection H as <-.
  - inv_bind H. apply list_sort_spec in Ha as (Hp & _). by rewrite (IH _ H).
Qed.

Lemma do_sort_total es ss o :
  Forall (sortable es) ss → (∀ x, x ∈ o → x ∈ dict_keys es) →
  ∃ o', do_sort es ss o = Ok o'.
Proof.
  intros Hss. revert o. induction Hss as [|[key rev] ss [v0 Hs] _ IH];
    intros o Ho; simpl; [eauto|].
  destruct (list_sort_total (sort_field es key) rev v0 o) as [o1 Ho1].
  { apply Forall_forall. intros x Hx.
    destruct (dict_get_elem _ _ (Ho _ Hx)) as (e & He & Hin).
    rewrite Forall_forall in Hs. destruct (Hs _ Hin) as (v & Hv & Hty).
    exists v. split; [|done]. unfold sort_field, getitem. rewrite He. simpl.
    simpl in Hv. by rewrite Hv. }
  rewrite Ho1. simpl. apply IH. intros x Hx. apply Ho.
  apply list_sort_spec in Ho1 as (Hp & _). by rewrite <-Hp.
Qed.

(** After a history of one criterion the order is sorted by it. *)
Lemma do_sort_one es s o o' :
  do_sort es [s] o = Ok o' → StronglySorted (crit_le es s) o'.
Proof.
  destruct s as [key rev]. simpl. intros H. inv_bind H. injection H as <-.
  by apply list_sort_spec in Ha as (_ & Hs & _).
Qed.

(** After a history of two criteria the order is sorted by the newer one,
    and every group the newer one ranks equal is sorted by the older one. *)
Lemma do_sort_two es s1 s2 o o' :
  do_sort es [s1; s2] o = Ok o' →
  StronglySorted (crit_le es s2) o' ∧
  ∀ x0, StronglySorted (crit_le es s1) (filter (crit_tied es s2 x0) o').
Proof.
  destruct s1 as [k1 r1], s2 as [k2 r2]. simpl. intros H.
  inv_bind H. inv_bind H. injection H as <-.
  apply list_sort_spec in Ha as (_ & Hs1 & _).
  apply list_sort_spec in Ha0 as (_ & Hs2 & Hst).
  split; [done|]. intros x0. unfold crit_tied. simpl. rewrite Hst.
  by apply StronglySorted_filter.
Qed.

Lemma filter_andb {A} (f g : A → bool) (l : list A) :
  filter (λ x, f x && g x) l = filter f (filter g l).
Proof.
  induction l as [|x l IH]; [done|]. rewrite !filter_cons.
  destruct (g x) eqn:Hg; simpl.
  - rewrite filter_cons, IH. by destruct (f x).
  - rewrite andb_false_r. simpl. by rewrite IH.
Qed.

Lemma filter_comm {A} (f g : A → bool) (l : list A) :
  filter f (filter g l) = filter g (filter f l).
Proof.
  rewrite <-!filter_andb. induction l as [|x l IH]; [done|].
  rewrite !filter_cons, IH, (andb_comm (f x)). done.
Qed.

(** Identifiers that rank equal under every criterion keep their order. *)
Lemma do_sort_stable es ss o o' x0 :
  do_sort es ss o = Ok o' →
  filter (tied_all es ss x0) o' = filter (tied_all es ss x0) o.
Proof.
  revert o. induction ss as [|[key rev] ss IH]; intros o H; simpl in H.
  - by injection H as <-.
  - inv_bind H. apply list_sort_spec in Ha as (_ & _ & Hst).
    unfold tied_all. simpl.
    rewrite !(filter_andb (crit_tied es (key, rev) x0)).
    change (forallb (λ s, crit_tied es s x0 ?x) ss) with (tied_all es ss x0 x).
    rewrite (IH _ H), !(filter_comm (crit_tied es (key, rev) x0)).
    f_equal. apply Hst.
Qed.

(** *** The sort history *)

Lemma evict_length ss : (length (evict ss) ≤ 2)%nat.
Proof.
  induction ss as [|s ss IH]; simpl; [lia|].
  case_bool_decide; simpl in *; lia.
Qed.

Lemma evict_snoc ss s :
  evict (ss ++ [s]) =
  match last ss with Some s' => [s'; s] | None => [s] end.
Proof.
  induction ss as [|s0 ss IH]; [done|].
  rewrite <-app_comm_cons. simpl. rewrite length_app. simpl.
  destruct ss as [|s1 ss]; [done|].
  rewrite bool_decide_true by (simpl; lia). rewrite IH.
  by rewrite last_cons_cons.
Qed.

End WalkerFacts.

Section WalkerClaims.
Context {widget : Type} (TorrentEntry : torrent → result widget).
Implicit Types (w : TorrentListWalker widget) (tl : list torrent).

Lemma set_entries_complete w tl :
  well_formed TorrentEntry (sorts w) tl →
  ∃ w', set_entries TorrentEntry w tl = Ok w'.
Proof.
  unfold well_formed, set_entries. intros [Hrec Hss]%andb_True.
  destruct (build_entries_total TorrentEntry tl [] Hrec) as [es Hes].
  rewrite Hes. simpl.
  destruct (do_sort_total es (sorts w) (dict_keys es)) as [o Ho]; [|done|].
  - apply Forall_forall. intros s Hs.
    assert (field_ok s.1 tl) as Hf.
    { clear -Hss Hs. induction (sorts w) as [|s' l IH]; [by apply elem_of_nil in Hs|].
      simpl in Hss. apply andb_True in Hss as [? ?].
      apply elem_of_cons in Hs as [->|?]; eauto. }
    apply field_ok_spec in Hf as [v0 Hv0]. exists v0.
    apply (build_entries_Forall TorrentEntry
             (λ t, ∃ v, t !! s.1 = Some v ∧ same_type v0 v) tl [] es);
      [done|constructor|done].
  - rewrite Ho. simpl. eauto.
Qed.

Lemma set_entries_spec w tl w' :
  set_entries TorrentEntry w tl = Ok w' →
  build_entries TorrentEntry tl [] = Ok (entries w') ∧
  do_sort (entries w') (sorts w) (dict_keys (entries w')) = Ok (order w') ∧
  sorts w' = sorts w ∧
  focus w' = match order w' with
             | [] => None
             | x :: _ => if focus_in (focus w) (order w') then focus w else Some x
             end.
Proof.
  unfold set_entries. intros H. inv_bind H. inv_bind H. by injection H as <-.
Qed.

Lemma set_entries_order w tl w' :
  set_entries TorrentEntry w tl = Ok w' →
  order_ok w' ∧ ∀ x, x ∈ order w' ↔ x ∈ ids tl.
Proof.
  intros (Hb & Hs & _)%set_entries_spec.
  apply build_entries_keys in Hb as [Hnd Hel]; [|constructor].
  apply do_sort_perm in Hs. split; [split|].
  - by rewrite Hs.
  - done.
  - intros x. rewrite Hs, Hel. unfold dict_keys. simpl. rewrite elem_of_nil. tauto.
Qed.

Lemma set_sort_spec key rev w w' :
  set_sort key rev w = Ok w' →
  ∃ k r,
    match key with Some k' => k = k' | None => sort_key w = Ok k end ∧
    match rev with Some r' => r = r' | None => sort_reversed w = Ok r end ∧
    sorts w' = evict (sorts w ++ [(k, r)]) ∧
    entries w' = entries w ∧ focus w' = focus w ∧
    do_sort (entries w) (sorts w') (order w) = Ok (order w').
Proof.
  unfold set_sort. intros H. inv_bind H. inv_bind H. inv_bind H.
  injection H as <-. simpl. exists a, a0. split_and!; try done.
  - destruct key; [by injection Ha as ->|done].
  - destruct rev; [by injection Ha0 as ->|done].
Qed.

Lemma set_sort_order_ok key rev w w' :
  set_sort key rev w = Ok w' → order_ok w → order_ok w'.
Proof.
  intros (k & r & _ & _ & _ & He & _ & Hs)%set_sort_spec [Hnd Hp].
  apply do_sort_perm in Hs. unfold order_ok. rewrite He, Hs. by split.
Qed.

Lemma set_sorts_order_ok calls w w' :
  set_sorts calls w = Ok w' → order_ok w → order_ok w'.
Proof.
  revert w. induction calls as [|[key rev] calls IH]; intros w H Hw; simpl in H.
  - by injection H as <-.
  - inv_bind H. eauto using set_sort_order_ok.
Qed.

(** C1.  For a well-formed raw list [set_entries] completes, and afterwards
    [order] has no duplicates and is a permutation of the keys of [entries],
    which are the identifiers of the list; this still holds after any
    further [set_sort] calls. *)
Theorem order_is_permutation_of_keys w tl :
  well_formed TorrentEntry (sorts w) tl →
  ∃ w', set_entries TorrentEntry w tl = Ok w' ∧
        NoDup (order w') ∧ order w' ≡ₚ dict_keys (entries w') ∧
        (∀ x, x ∈ order w' ↔ x ∈ ids tl) ∧
        ∀ calls w'', set_sorts calls w' = Ok w'' →
          NoDup (order w'') ∧ order w'' ≡ₚ dict_keys (entries w'').
Proof.
  intros Hwf. destruct (set_entries_complete _ _ Hwf) as [w' Hw']. exists w'.
  destruct (set_entries_order _ _ _ Hw') as [[Hnd Hp] Hel]. split_and!; try done.
  intros calls w'' H. by eapply set_sorts_order_ok.
Qed.

Lemma focus_in_spec (f : option value) (o : list value) :
  focus_in f o ↔ ∃ x, f = Some x ∧ x ∈ o.
Proof.
  destruct f as [x|]; simpl.
  - rewrite bool_decide_spec. naive_solver.
  - naive_solver.
Qed.

(** C2.  For a well-formed raw list [set_entries] completes and: a focus
    whose identifier occurs in the list is kept; otherwise, when the list is
    not empty, the focus becomes the first identifier of the sorted order;
    for the empty list the focus is [None]. *)
Theorem focus_after_set_entries w tl :
  well_formed TorrentEntry (sorts w) tl →
  ∃ w', set_entries TorrentEntry w tl = Ok w' ∧
        (∀ f, focus w = Some f → f ∈ ids tl → focus w' = Some f) ∧
        ((∀ f, focus w = Some f → f ∉ ids tl) → tl ≠ [] →
           ∃ x, order w' !! 0%nat = Some x ∧ focus w' = Some x) ∧
        (tl = [] → focus w' = None).
Proof.
  intros Hwf. destruct (set_entries_complete _ _ Hwf) as [w' Hw']. exists w'.
  destruct (set_entries_order _ _ _ Hw') as [_ Hel].
  destruct (set_entries_spec _ _ _ Hw') as (_ & _ & _ & Hf).
  split_and!; [done|..].
  - intros f Hfw Hin. rewrite Hf. apply Hel in Hin.
    destruct (order w') as [|x o]; [by apply elem_of_nil in Hin|].
    assert (focus_in (focus w) (x :: o)) as Hfi by (apply focus_in_spec; eauto).
    destruct (focus_in (focus w) (x :: o)); done.
  - intros Habs Hne. rewrite Hf.
    destruct (order w') as [|x o] eqn:Ho.
    + exfalso. destruct tl as [|t tl']; [done|].
      unfold well_formed in Hwf. simpl in Hwf.
      apply andb_True in Hwf as [[[Hid _]%andb_True _]%andb_True _].
      apply bool_decide_unpack in Hid as [k Hk].
      assert (k ∈ ids (t :: tl')) as Hin by (rewrite ids_cons, Hk; left).
      apply Hel in Hin. by apply elem_of_nil in Hin.
    + exists x. split; [done|].
      destruct (focus_in (focus w) (x :: o)) eqn:Hfi; [|done].
      apply Is_true_true, focus_in_spec in Hfi as (y & Hy & Hin).
      exfalso. apply (Habs _ Hy). by apply Hel.
  - intros ->. rewrite Hf.
    destruct (order w') as [|x o] eqn:Ho; [done|].
    assert (x ∈ ids []) as Hin by (apply Hel; left).
    by apply elem_of_nil in Hin.
Qed.

Lemma set_sort_sorts key rev w w' :
  set_sort key rev w = Ok w' →
  ∃ k r,
    match key with Some k' => k = k' | None => sort_key w = Ok k end ∧
    match rev with Some r' => r = r' | None => sort_reversed w = Ok r end ∧
    sorts w' = match last (sorts w) with
               | Some s' => [s'; (k, r)]
               | None => [(k, r)]
               end.
Proof.
  intros (k & r & Hk & Hr & Hs & _)%set_sort_spec. exists k, r.
  by rewrite <-evict_snoc.
Qed.

Lemma set_sort_sorted key rev w w' :
  set_sort key rev w = Ok w' → sorted_by (entries w') (sorts w') (order w').
Proof.
  intros H. destruct (set_sort_sorts _ _ _ _ H) as (k & r & _ & _ & Hs).
  apply set_sort_spec in H as (_ & _ & _ & _ & _ & He & _ & Hd).
  rewrite He. unfold sorted_by. destruct (last (sorts w)) as [s'|];
    rewrite Hs in *; eauto using do_sort_one, do_sort_two.
Qed.

(** C3.  After any [set_sort] the history holds one or two criteria and the
    order is sorted by the newest one, each group of identifiers the newest
    one ranks equal being sorted by the older one, and identifiers that rank
    equal under all criteria keeping the order they had; two calls with explicit
    arguments leave exactly these two criteria, oldest first; and on the
    three records of the example, sorting by size and then by name, both
    ascending, gives the order 3, 2, 1. *)
Theorem newest_criterion_dominates :
  (∀ key rev w w', set_sort key rev w = Ok w' →
     sorted_by (entries w') (sorts w') (order w')) ∧
  (∀ key rev w w' x0, set_sort key rev w = Ok w' →
     filter (tied_all (entries w') (sorts w') x0) (order w')
     = filter (tied_all (entries w') (sorts w') x0) (order w)) ∧
  (∀ k1 r1 k2 r2 w w1 w2,
     set_sort (Some k1) (Some r1) w = Ok w1 →
     set_sort (Some k2) (Some r2) w1 = Ok w2 →
     sorts w2 = [(k1, r1); (k2, r2)]) ∧
  (forallb (renders TorrentEntry) Demo.recs →
   (w ← set_entries TorrentEntry init Demo.recs;
    w1 ← set_sort (Some "size") (Some false) w;
    w2 ← set_sort (Some "name") (Some false) w1;
    Ok (order w2, sorts w2))
   = Ok ([VInt 3; VInt 2; VInt 1], [("size", false); ("name", false)])).
Proof.
  split_and!.
  - apply set_sort_sorted.
  - intros key rev w w' x0 (_ & _ & _ & _ & _ & He & _ & Hd)%set_sort_spec.
    rewrite He. by apply do_sort_stable.
  - intros k1 r1 k2 r2 w w1 w2 H1 H2.
    apply set_sort_sorts in H1 as (k & r & -> & -> & Hs1).
    apply set_sort_sorts in H2 as (k & r & -> & -> & Hs2).
    rewrite Hs2, Hs1. by destruct (last (sorts w)).
  - unfold renders. simpl. intros H.
    destruct (TorrentEntry (Demo.mk 1 "b" 5)) as [wd1|] eqn:H1; [|done].
    destruct (TorrentEntry (Demo.mk 2 "a" 5)) as [wd2|] eqn:H2; [|done].
    destruct (TorrentEntry (Demo.mk 3 "a" 3)) as [wd3|] eqn:H3; [|done].
    unfold set_entries, Demo.recs.
    assert (build_entries TorrentEntry
              [Demo.mk 1 "b" 5; Demo.mk 2 "a" 5; Demo.mk 3 "a" 3] []
            = Ok [(VInt 1, (Demo.mk 1 "b" 5, wd1));
                  (VInt 2, (Demo.mk 2 "a" 5, wd2));
                  (VInt 3, (Demo.mk 3 "a" 3, wd3))]) as ->.
    { cbn [build_entries]. rewrite H1, H2, H3. reflexivity. }
    vm_compute. reflexivity.
Qed.

(** C10.  A fresh walker has the single criterion ("name", ascending).  The
    first [set_entries] therefore completes on a well-formed list with the
    order sorted by name, ascending; and a [set_sort] on a walker that still
    has the initial history takes "name" for an omitted key and [false] for
    an omitted direction, and completes on the fresh walker. *)
Theorem default_sort_is_name :
  sorts (init (widget := widget)) = [("name", false)] ∧
  (∀ tl, well_formed TorrentEntry (sorts (init (widget := widget))) tl →
     ∃ w', set_entries TorrentEntry init tl = Ok w' ∧
           sorts w' = [("name", false)] ∧
           StronglySorted (crit_le (entries w') ("name", false)) (order w')) ∧
  (∀ w key rev w',
     sorts w = [("name", false)] → set_sort key rev w = Ok w' →
     sorts w' = [("name", false); (default "name" key, default false rev)]) ∧
  (∀ key rev, ∃ w', set_sort key rev (init (widget := widget)) = Ok w').
Proof.
  split_and!.
  - done.
  - intros tl Hwf. destruct (set_entries_complete _ _ Hwf) as [w' Hw'].
    exists w'. destruct (set_entries_spec _ _ _ Hw') as (_ & Hs & Hss & _).
    split_and!; [done..|]. by apply do_sort_one in Hs.
  - intros w key rev w' Hw (k & r & Hk & Hr & Hs)%set_sort_sorts.
    rewrite Hs, Hw. simpl. unfold sort_key, sort_reversed in *.
    rewrite Hw in *. simpl in *.
    destruct key, rev; simpl; congruence.
  - intros key rev. destruct key, rev; vm_compute; eauto.
Qed.

Lemma filter_eq_absent (l : list value) k :
  k ∉ l → filter (λ x, x = k) l = [].
Proof.
  induction l as [|x l IH]; [done|]. intros Hk.
  apply not_elem_of_cons in Hk as [Hne Hk]. rewrite filter_cons.
  destruct (decide (x = k)); [congruence|auto].
Qed.

Lemma filter_eq_once (l : list value) k :
  NoDup l → k ∈ l → length (filter (λ x, x = k) l) = 1%nat.
Proof.
  induction 1 as [|x l Hx Hnd IH]; intros Hin.
  - by apply elem_of_nil in Hin.
  - rewrite filter_cons. destruct (decide (x = k)) as [->|Hne].
    + simpl. by rewrite filter_eq_absent.
    + apply elem_of_cons in Hin as [?|Hin]; [congruence|auto].
Qed.

(** C8, as the code has it.  A raw list is not checked for repeated
    identifiers: on every well-formed list, repeated identifiers or not,
    [set_entries] completes, the stored keys are distinct, the order has no
    repetition, is a rearrangement of the stored keys and lists every
    identifier of the raw list exactly once, and the record stored for an
    identifier is the last one of the list that carries it. *)
Theorem duplicate_ids_last_wins w tl :
  well_formed TorrentEntry (sorts w) tl →
  ∃ w', set_entries TorrentEntry w tl = Ok w' ∧
        NoDup (dict_keys (entries w')) ∧
        NoDup (order w') ∧
        order w' ≡ₚ dict_keys (entries w') ∧
        (∀ k, k ∈ ids tl →
              length (filter (λ x, x = k) (order w')) = 1%nat) ∧
        ∀ k t, last (filter (λ t : torrent, t !! "id" = Some k) tl) = Some t →
               ∃ wd, dict_get k (entries w') = Ok (t, wd).
Proof.
  intros Hwf. destruct (set_entries_complete _ _ Hwf) as [w' Hw']. exists w'.
  split; [done|]. destruct (set_entries_spec _ _ _ Hw') as (Hb & _).
  destruct (set_entries_order _ _ _ Hw') as [[Hnd Hperm] Hids].
  split_and!.
  - by apply build_entries_keys in Hb as [? _]; [|constructor].
  - done.
  - done.
  - intros k Hk. apply filter_eq_once; [done|]. by apply Hids.
  - intros k t Hl. pose proof (build_entries_last _ _ _ _ k Hb) as H.
    by rewrite Hl in H.
Qed.

End WalkerClaims.

(** ** The callback bridge *)

Section BridgeFacts.
Context {S V E : Type}.
Implicit Types (b : bridge S V E) (it : work S V E).

Lemma called_triples (done : list (work S V E)) :
  called (flat_map triple done) = done.
Proof. induction done as [|it done IH]; [done|]. simpl. by rewrite IH. Qed.

Lemma called_app (l1 l2 : list (event S V E)) :
  called (l1 ++ l2) = called l1 ++ called l2.
Proof. unfold called. by rewrite omap_app. Qed.

Lemma serial_triples (done : list (work S V E)) (tail : list (event S V E)) :
  serial tail → serial (flat_map triple done ++ tail).
Proof. induction done as [|it done IH]; [done|]. simpl. eauto. Qed.

Lemma flat_map_snoc (done : list (work S V E)) it :
  flat_map triple (done ++ [it]) = flat_map triple done ++ triple it.
Proof. by rewrite flat_map_app. Qed.

Lemma bridge_inv_init (s : S) : bridge_inv (bridge_init (V := V) (E := E) s).
Proof. exists [], [], []. simpl. eauto 10. Qed.

Lemma bridge_inv_step b b' : bridge_step b b' → bridge_inv b → bridge_inv b'.
Proof.
  intros Hstep (done & cur & tail & Hlog & Hsub & Hcase).
  destruct Hstep as [it b|b b' Hb|e b b' He].
  - exists done, cur, tail. simpl. rewrite Hsub, <-!app_assoc. eauto.
  - unfold drain_begin in Hb.
    destruct (failed b) eqn:Hf, (running b) eqn:Hr, (queue b) as [|it q] eqn:Hq;
      try done.
    injection Hb as <-.
    destruct Hcase as [(_ & _ & -> & ->)|[(? & ? & _)|(? & _ & [? ?] & _)]];
      try done.
    exists done, [it], [Started it]. simpl.
    rewrite Hlog, Hsub, app_nil_r. eauto 10.
  - unfold drain_end in He.
    destruct (failed b) eqn:Hf, (running b) as [it|] eqn:Hr; try done.
    destruct Hcase as [(? & _)|[(it' & Hit & _ & -> & ->)|(? & _ & [? ?] & _)]];
      try done.
    injection Hit as <-.
    destruct (func it e) as [rv|x]; [destruct (callback it rv (ui b)) as [s'|x]|];
      injection He as <-.
    + exists (done ++ [it]), [], []. simpl.
      rewrite Hlog, Hsub, flat_map_snoc, app_nil_r, <-!app_assoc.
      split_and!; [done..|]. left. done.
    + exists done, [it], [Started it; Called it]. simpl.
      rewrite Hlog, Hsub, <-!app_assoc. split_and!; eauto 10.
    + exists done, [it], [Started it]. simpl. split_and!; eauto 10.
Qed.

Lemma bridge_inv_reachable (s : S) b :
  rtc bridge_step (bridge_init s) b → bridge_inv b.
Proof.
  revert b. apply (rtc_ind_r (λ b, bridge_inv b) (bridge_init s));
    eauto using bridge_inv_init, bridge_inv_step.
Qed.

(** Once [handle_callbacks] has ended with an exception nothing runs any
    more; items can still be sent. *)
Lemma failed_step b b' x :
  failed b = Some x → bridge_step b b' →
  failed b' = Some x ∧ log b' = log b ∧ ui b' = ui b ∧
  ∃ more, queue b' = queue b ++ more.
Proof.
  intros Hf Hstep. inversion Hstep as [it b0|b0 b1 Hb|e b0 b1 He]; subst.
  - simpl. split_and!; [done..|]. by exists [it].
  - unfold drain_begin in Hb. by rewrite Hf in Hb.
  - unfold drain_end in He. by rewrite Hf in He.
Qed.

Lemma failed_forever b b' x :
  failed b = Some x → rtc bridge_step b b' →
  failed b' = Some x ∧ log b' = log b ∧ ui b' = ui b ∧
  ∃ more, queue b' = queue b ++ more.
Proof.
  intros Hf. revert b'.
  apply (rtc_ind_r (λ b', failed b' = Some x ∧ log b' = log b ∧ ui b' = ui b ∧
                          ∃ more, queue b' = queue b ++ more) b).
  - split_and!; try done. exists []. by rewrite app_nil_r.
  - intros b' b'' Hrtc Hstep (Hf' & Hl & Hu & q1 & Hq).
    destruct (failed_step _ _ _ Hf' Hstep) as (? & Hl' & Hu' & q2 & Hq').
    split_and!; try congruence. exists (q1 ++ q2).
    by rewrite Hq', Hq, app_assoc.
Qed.

(** C4.  In every state the bridge can reach: the continuations entered so
    far are, in order, the first items submitted; the log is a run of
    complete [Started; Called; Returned] triples followed by at most the
    events of the item in progress, so no producer starts before the previous
    continuation has returned; once the queue is drained without a failure
    every submitted continuation has run, in submission order; submitting is
    always possible and only appends to the queue; and the drain task can
    move whenever it has not failed and work is pending. *)
Theorem bridge_fifo (s : S) b :
  rtc bridge_step (bridge_init s) b →
  called (log b) `prefix_of` submitted b ∧
  serial (log b) ∧
  (failed b = None → running b = None → queue b = [] →
   called (log b) = submitted b) ∧
  (∀ it, bridge_step b (call_async_function it b) ∧
         queue (call_async_function it b) = queue b ++ [it] ∧
         log (call_async_function it b) = log b) ∧
  (∀ e : E, failed b = None → (is_Some (running b) ∨ queue b ≠ []) →
     is_Some (drain_begin b) ∨ is_Some (drain_end e b)).
Proof.
  intros (done & cur & tail & Hlog & Hsub & Hcase)%bridge_inv_reachable.
  split_and!.
  - rewrite Hlog, Hsub, called_app, called_triples.
    destruct Hcase as [(_ & _ & -> & ->)|[(it & _ & _ & -> & ->)
      |(it & _ & _ & -> & [->| ->])]]; simpl.
    + rewrite app_nil_r. by apply prefix_app_r.
    + rewrite app_nil_r. by apply prefix_app_r.
    + rewrite app_nil_r. by apply prefix_app_r.
    + apply prefix_app, prefix_cons, prefix_nil.
  - rewrite Hlog. apply serial_triples.
    by destruct Hcase as [(_ & _ & -> & ->)|[(it & _ & _ & -> & ->)
      |(it & _ & _ & -> & [->| ->])]].
  - intros Hf Hr Hq. rewrite Hlog, Hsub, Hq, called_app, called_triples.
    destruct Hcase as [(_ & _ & -> & ->)|[(it & ? & _)|(it & _ & [? ?] & _)]];
      [done|congruence..].
  - intros it. split; [constructor|done].
  - intros e Hf Hw. unfold drain_begin, drain_end. rewrite Hf.
    destruct (running b) as [it|].
    + right. destruct (func it e); [destruct (callback _ _ _)|]; eauto.
    + left. destruct Hw as [[? ?]|Hq]; [done|].
      destruct (queue b); [done|eauto].
Qed.

(** C7, as the code has it.  [handle_callbacks] has no handler: when the
    producer of the item in progress fails, or its continuation raises, the
    exception ends the drain task.  From then on the log and the
    user-interface state never change again, so no item still queued or
    submitted later is ever run. *)
Theorem drain_failure_ends_task b e b' it :
  running b = Some it → drain_end e b = Some b' →
  (∀ x, func it e = Raise x → failed b' = Some x) ∧
  (∀ rv x, func it e = Ok rv → callback it rv (ui b) = Raise x →
           failed b' = Some x) ∧
  (∀ x b'', failed b' = Some x → rtc bridge_step b' b'' →
            failed b'' = Some x ∧ called (log b'') = called (log b') ∧
            started (log b'') = started (log b') ∧ ui b'' = ui b' ∧
            drain_begin b'' = None ∧ ∀ e', drain_end e' b'' = None).
Proof.
  intros Hr He. unfold drain_end in He. rewrite Hr in He.
  destruct (failed b) eqn:Hf; [done|]. split_and!.
  - intros x Hx. rewrite Hx in He. by injection He as <-.
  - intros rv x Hrv Hx. rewrite Hrv, Hx in He. by injection He as <-.
  - intros x b'' Hf' Hrtc.
    destruct (failed_forever _ _ _ Hf' Hrtc) as (Hf'' & -> & -> & _).
    split_and!; try done.
    + unfold drain_begin. by rewrite Hf''.
    + intros e'. unfold drain_end. by rewrite Hf''.
Qed.

End BridgeFacts.

(** ** The polling loop and the staleness display *)

Section ConsoleClaims.
Context {widget detail_win chrome : Type}.
Context (TorrentEntry : torrent → result widget).
Context (torrent_info : detail_win → torrent).
Context (set_data : torrent → detail_win → result detail_win).
Context (update_chrome :
  list torrent → torrent → torrent → Q → chrome → result chrome).

(** C5.  When one of the three calls of a round raises, the iteration ends
    with [continue]: no exception leaves the loop, the next iteration is
    entered, and the whole state, with it the entries, the order and the
    focus of the list, is what it was before the round. *)
Theorem failed_round_changes_nothing (it : Q) (rd : round)
    (t : bridge (Console (widget := widget) (detail_win := detail_win)
                   (chrome := chrome)) torrent daemon) :
  round_fails rd →
  ∃ start t',
    update_data_iter TorrentEntry torrent_info set_data update_chrome it rd t
    = Next start t' ∧ t' = t ∧
    entries (data (ui t')) = entries (data (ui t)) ∧
    order (data (ui t')) = order (data (ui t)) ∧
    focus (data (ui t')) = focus (data (ui t)) ∧
    last_update (ui t') = last_update (ui t).
Proof.
  unfold round_fails, update_data_iter. destruct (fetch rd) as [dt [r|e]];
    [done|]. intros _. by exists (it + dt)%Q, t.
Qed.

(** C6, where the code departs from it.  After a round that fails the next
    iteration is entered as soon as the failing call has returned: the
    [continue] skips [sleep_until].  A round refused after a tenth of a
    second is retried a tenth of a second after it began, earlier than the
    poll period allows. *)
Theorem failed_round_is_retried_at_once (it : Q)
    (t : bridge (Console (widget := widget) (detail_win := detail_win)
                   (chrome := chrome)) torrent daemon) :
  update_data_iter TorrentEntry torrent_info set_data update_chrome it
    Demo.refused t = Next (it + (1 # 10)) t ∧
  (it + (1 # 10) < it + poll_period)%Q.
Proof.
  split; [done|]. unfold poll_period. apply Qplus_lt_r. reflexivity.
Qed.


End ConsoleClaims.

(** ** The properties on the sample data *)

Lemma order_is_permutation_of_keys_witness :
  well_formed Demo.row (sorts Demo.fresh) Demo.recs ∧
  ∃ w', set_entries Demo.row Demo.fresh Demo.recs = Ok w' ∧
        NoDup (order w') ∧ order w' ≡ₚ dict_keys (entries w') ∧
        (∀ x, x ∈ order w' ↔ x ∈ ids Demo.recs) ∧
        ∀ calls w'', set_sorts calls w' = Ok w'' →
          NoDup (order w'') ∧ order w'' ≡ₚ dict_keys (entries w'').
Proof.
  split; [vm_compute; exact I|].
  apply (order_is_permutation_of_keys Demo.row Demo.fresh Demo.recs).
  vm_compute; exact I.
Defined.

Lemma focus_after_set_entries_witness :
  well_formed Demo.row (sorts Demo.focused) Demo.recs ∧
  ∃ w', set_entries Demo.row Demo.focused Demo.recs = Ok w' ∧
        (∀ f, focus Demo.focused = Some f → f ∈ ids Demo.recs →
              focus w' = Some f) ∧
        ((∀ f, focus Demo.focused = Some f → f ∉ ids Demo.recs) →
           Demo.recs ≠ [] →
           ∃ x, order w' !! 0%nat = Some x ∧ focus w' = Some x) ∧
        (Demo.recs = [] → focus w' = None).
Proof.
  split; [vm_compute; exact I|].
  apply (focus_after_set_entries Demo.row Demo.focused Demo.recs).
  vm_compute; exact I.
Defined.

Lemma newest_criterion_dominates_witness :
  forallb (renders Demo.row) Demo.recs ∧
  (w ← set_entries Demo.row Demo.fresh Demo.recs;
   w1 ← set_sort (Some "size") (Some false) w;
   w2 ← set_sort (Some "name") (Some false) w1;
   Ok (order w2, sorts w2))
  = Ok ([VInt 3; VInt 2; VInt 1], [("size", false); ("name", false)]).
Proof.
  split; [vm_compute; exact I|].
  apply (newest_criterion_dominates Demo.row). vm_compute; exact I.
Defined.

Lemma bridge_fifo_witness :
  rtc bridge_step (bridge_init 0%nat) Demo.drained ∧
  called (log Demo.drained) `prefix_of` submitted Demo.drained ∧
  serial (log Demo.drained) ∧
  called (log Demo.drained) = [Demo.doubles; Demo.adds].
Proof.
  assert (rtc bridge_step (bridge_init 0%nat) Demo.drained) as Hrun.
  { eapply rtc_l; [apply (step_submit Demo.doubles)|].
    eapply rtc_l; [apply (step_submit Demo.adds)|].
    eapply rtc_l; [apply step_begin; reflexivity|].
    eapply rtc_l; [apply (step_end 3%nat); reflexivity|].
    eapply rtc_l; [apply step_begin; reflexivity|].
    eapply rtc_l; [apply (step_end 3%nat); reflexivity|].
    apply rtc_refl. }
  destruct (bridge_fifo 0%nat Demo.drained Hrun) as (Hp & Hs & Hall & _).
  split_and!; [done..|]. by apply Hall.
Defined.

Lemma failed_round_changes_nothing_witness :
  round_fails Demo.refused ∧
  ∃ start t',
    update_data_iter Demo.row Demo.win_info Demo.win_set Demo.count_text
      0 Demo.refused (bridge_init Demo.console0) = Next start t' ∧
    t' = bridge_init Demo.console0.
Proof.
  split; [exact I|].
  destruct (failed_round_changes_nothing Demo.row Demo.win_info Demo.win_set
              Demo.count_text 0 Demo.refused (bridge_init Demo.console0) I)
    as (start & t' & H & Ht & _).
  by exists start, t'.
Defined.

Lemma drain_failure_ends_task_witness :
  running Demo.holding_bad = Some Demo.bad ∧
  drain_end 3%nat Demo.holding_bad = Some Demo.after_bad ∧
  failed Demo.after_bad = Some (RemoteError "boom") ∧
  ∀ b'', rtc bridge_step Demo.after_bad b'' →
         called (log b'') = called (log Demo.after_bad) ∧
         drain_begin b'' = None.
Proof.
  assert (running Demo.holding_bad = Some Demo.bad) as Hr by reflexivity.
  assert (drain_end 3%nat Demo.holding_bad = Some Demo.after_bad) as He
    by reflexivity.
  destruct (drain_failure_ends_task _ _ _ _ Hr He) as (Hx & _ & Hstop).
  split_and!; [done..|].
  intros b'' Hrtc.
  destruct (Hstop (RemoteError "boom") b'' eq_refl Hrtc) as (_ & ? & _ & _ & ? & _).
  done.
Defined.

(** C8 as stated fails: the raw list [Demo.dups] carries the identifier 1
    twice and is accepted, the later record replacing the earlier one. *)
Lemma duplicate_ids_accepted :
  ids Demo.dups = [VInt 1; VInt 2; VInt 1] ∧
  ∃ w', set_entries Demo.row Demo.fresh Demo.dups = Ok w' ∧
        order w' = [VInt 2; VInt 1] ∧
        dict_get (VInt 1) (entries w')
        = Ok (Demo.mk 1 "second" 30, "second").
Proof.
  split; [reflexivity|]. eexists. split; [vm_compute; reflexivity|].
  split; vm_compute; reflexivity.
Qed.

Lemma duplicate_ids_last_wins_witness :
  well_formed Demo.row (sorts Demo.fresh) Demo.dups ∧
  ∃ w', set_entries Demo.row Demo.fresh Demo.dups = Ok w' ∧
        NoDup (dict_keys (entries w')) ∧
        NoDup (order w') ∧
        order w' ≡ₚ dict_keys (entries w') ∧
        (∀ k, k ∈ ids Demo.dups →
              length (filter (λ x, x = k) (order w')) = 1%nat) ∧
        ∀ k t,
          last (filter (λ t : torrent, t !! "id" = Some k) Demo.dups) = Some t →
          ∃ wd, dict_get k (entries w') = Ok (t, wd).
Proof.
  split; [vm_compute; exact I|].
  apply (duplicate_ids_last_wins Demo.row Demo.fresh Demo.dups). vm_compute; exact I.
Defined.

(** C7 as stated fails: after the producer of [Demo.bad] has failed, the
    item [Demo.adds] stays in the queue and its continuation is never
    entered, whatever happens next. *)
Lemma drain_stops_at_first_failure :
  rtc bridge_step (bridge_init 0%nat) Demo.after_bad ∧
  queue Demo.after_bad = [Demo.adds] ∧
  ∀ b', rtc bridge_step Demo.after_bad b' →
        called (log b') = [] ∧ started (log b') = [Demo.bad] ∧
        ∃ more, queue b' = Demo.adds :: more.
Proof.
  split_and!.
  - eapply rtc_l; [apply (step_submit Demo.bad)|].
    eapply rtc_l; [apply (step_submit Demo.adds)|].
    eapply rtc_l; [apply step_begin; reflexivity|].
    eapply rtc_l; [apply (step_end 3%nat); reflexivity|].
    apply rtc_refl.
  - reflexivity.
  - intros b' Hrtc.
    destruct (failed_forever Demo.after_bad b' _ eq_refl Hrtc)
      as (_ & -> & _ & more & ->).
    split_and!; [done..|]. by exists more.
Qed.


Lemma default_sort_is_name_witness :
  well_formed Demo.row (sorts Demo.fresh) Demo.recs ∧
  sorts Demo.fresh = [("name", false)] ∧
  ∃ w', set_entries Demo.row Demo.fresh Demo.recs = Ok w' ∧
        order w' = [VInt 2; VInt 3; VInt 1] ∧
        ∀ key rev w'', set_sort key rev w' = Ok w'' →
          sorts w'' = [("name", false); (default "name" key, default false rev)].
Proof.
  destruct (default_sort_is_name Demo.row) as (H0 & Hfirst & Hdef & _).
  assert (well_formed Demo.row (sorts Demo.fresh) Demo.recs)
    as Hwf by (vm_compute; exact I).
  split_and!; [done..|].
  destruct (Hfirst Demo.recs Hwf) as (w' & Hw' & Hs & _). exists w'.
  split_and!; [exact Hw'| |].
  - clear -Hw'. revert Hw'. vm_compute. intros [= <-]. reflexivity.
  - intros key rev w'' H. by apply (Hdef w' key rev w'' Hs).
Defined.

(** * Further properties of the code *)

(** ** torrent_list.py *)

Lemma list_index_Some x l i :
  list_index x l = Some i → l !! i = Some x ∧ x ∉ take i l.
Proof.
  revert i. induction l as [|y l IH]; intros i H; simpl in H; [done|].
  destruct (decide (x = y)) as [->|Hne].
  - injection H as <-. split; [done|]. simpl. apply not_elem_of_nil.
  - destruct (list_index x l) as [j|]; [|done]. injection H as <-.
    destruct (IH j eq_refl) as [Hj Hn]. split; [done|]. simpl.
    rewrite not_elem_of_cons. done.
Qed.

Lemma list_index_None x l : list_index x l = None ↔ x ∉ l.
Proof.
  induction l as [|y l IH]; simpl.
  - split; [intros _; apply not_elem_of_nil|done].
  - destruct (decide (x = y)) as [->|Hne].
    + split; [done|]. intros H. exfalso. apply H. left.
    + rewrite not_elem_of_cons, <-IH.
      destruct (list_index x l); simpl; naive_solver.
Qed.

Lemma list_index_NoDup x l i :
  NoDup l → l !! i = Some x → list_index x l = Some i.
Proof.
  intros Hnd. revert i. induction Hnd as [|y l Hy Hnd IH]; intros i H; [done|].
  simpl. destruct i as [|i]; simpl in H.
  - injection H as ->. by rewrite decide_True.
  - destruct (decide (x = y)) as [->|Hne].
    + exfalso. apply Hy. by eapply list_elem_of_lookup_2.
    + by rewrite (IH _ H).
Qed.

Lemma lookup_adjacent (l : list value) i p q :
  l !! i = Some p → l !! S i = Some q →
  ∃ l1 l2, l = l1 ++ p :: q :: l2 ∧ length l1 = i.
Proof.
  intros Hp Hq. exists (take i l), (drop (S (S i)) l). split.
  - rewrite <-(take_drop i l) at 1. f_equal.
    rewrite (drop_S _ _ _ Hp). f_equal. by rewrite (drop_S _ _ _ Hq).
  - apply length_take_le. apply lookup_lt_Some in Hp. lia.
Qed.

Section WalkerMore.
Context {widget : Type} (TorrentEntry : torrent → result widget).
Implicit Types (w : TorrentListWalker widget) (tl : list torrent).

Lemma next_position_spec w p q :
  NoDup (order w) →
  next_position p w = Ok q ↔ ∃ l1 l2, order w = l1 ++ p :: q :: l2.
Proof.
  intros Hnd. unfold next_position. split.
  - destruct (list_index p (order w)) as [i|] eqn:Hi; [|done].
    apply list_index_Some in Hi as [Hp _].
    destruct (order w !! (i + 1)%nat) as [rv|] eqn:Hq; [|done].
    intros [= ->]. rewrite Nat.add_1_r in Hq.
    destruct (lookup_adjacent _ _ _ _ Hp Hq) as (l1 & l2 & ? & _). eauto.
  - intros (l1 & l2 & Ho).
    assert (order w !! length l1 = Some p) as Hp.
    { rewrite Ho. by apply list_lookup_middle. }
    assert (order w !! (length l1 + 1)%nat = Some q) as Hq.
    { rewrite Ho, lookup_app_r by lia.
      by replace (length l1 + 1 - length l1)%nat with 1%nat by lia. }
    by rewrite (list_index_NoDup _ _ _ Hnd Hp), Hq.
Qed.

Lemma prev_position_spec w p q :
  NoDup (order w) →
  prev_position q w = Ok p ↔ ∃ l1 l2, order w = l1 ++ p :: q :: l2.
Proof.
  intros Hnd. unfold prev_position. split.
  - destruct (list_index q (order w)) as [i|] eqn:Hi; [|done].
    apply list_index_Some in Hi as [Hq _].
    destruct (decide (i = 0%nat)) as [->|Hne]; [done|].
    destruct (order w !! (i - 1)%nat) as [rv|] eqn:Hp; [|done].
    intros [= ->]. replace i with (S (i - 1)) in Hq by lia.
    destruct (lookup_adjacent _ _ _ _ Hp Hq) as (l1 & l2 & ? & _). eauto.
  - intros (l1 & l2 & Ho).
    assert (order w !! S (length l1) = Some q) as Hq.
    { rewrite Ho, lookup_app_r by lia.
      by replace (S (length l1) - length l1)%nat with 1%nat by lia. }
    assert (order w !! length l1 = Some p) as Hp.
    { rewrite Ho. by apply list_lookup_middle. }
    rewrite (list_index_NoDup _ _ _ Hnd Hq). simpl.
    by rewrite Nat.sub_0_r, Hp.
Qed.

(** X1.  On an order without duplicates [next_position] and [prev_position]
    are inverse to each other: [q] follows [p] exactly when [p] precedes [q],
    and this is the case exactly when [q] stands right behind [p] in the
    order. *)
Theorem next_prev_inverse w p q :
  NoDup (order w) →
  (next_position p w = Ok q ↔ prev_position q w = Ok p) ∧
  (next_position p w = Ok q ↔ ∃ l1 l2, order w = l1 ++ p :: q :: l2).
Proof.
  intros Hnd. split; [|by apply next_position_spec].
  by rewrite next_position_spec, prev_position_spec.
Qed.

(** X2.  Where navigation ends: both functions raise [IndexError] for a
    position that is not listed; [next_position] raises it for the last
    position and [prev_position] for the first; everywhere else they
    return. *)
Theorem navigation_edges w p :
  NoDup (order w) →
  (p ∉ order w →
   next_position p w = Raise IndexError ∧ prev_position p w = Raise IndexError) ∧
  (last (order w) = Some p → next_position p w = Raise IndexError) ∧
  (head (order w) = Some p → prev_position p w = Raise IndexError) ∧
  (p ∈ order w → last (order w) ≠ Some p → ∃ q, next_position p w = Ok q) ∧
  (p ∈ order w → head (order w) ≠ Some p → ∃ q, prev_position p w = Ok q).
Proof.
  intros Hnd. unfold next_position, prev_position. split_and!.
  - intros Hp%list_index_None. by rewrite Hp.
  - intros Hl. rewrite last_lookup in Hl.
    rewrite (list_index_NoDup _ _ _ Hnd Hl).
    rewrite lookup_ge_None_2; [done|].
    destruct (order w); simpl; lia.
  - intros Hh. rewrite head_lookup in Hh.
    by rewrite (list_index_NoDup _ _ _ Hnd Hh).
  - intros Hin Hl. apply list_elem_of_lookup in Hin as [i Hi].
    rewrite (list_index_NoDup _ _ _ Hnd Hi).
    destruct (order w !! (i + 1)%nat) as [q|] eqn:Hq; [eauto|].
    exfalso. apply Hl. rewrite last_lookup, <-Hi. f_equal.
    apply lookup_ge_None in Hq. apply lookup_lt_Some in Hi. lia.
  - intros Hin Hh. apply list_elem_of_lookup in Hin as [i Hi].
    rewrite (list_index_NoDup _ _ _ Hnd Hi).
    destruct (decide (i = 0%nat)) as [->|Hne].
    { exfalso. apply Hh. by rewrite head_lookup. }
    destruct (order w !! (i - 1)%nat) as [q|] eqn:Hq; [eauto|].
    apply lookup_ge_None in Hq. apply lookup_lt_Some in Hi. lia.
Qed.

End WalkerMore.

Section WalkerState.
Context {widget : Type} (TorrentEntry : torrent → result widget).
Implicit Types (w : TorrentListWalker widget) (tl : list torrent).

Lemma set_entries_focus_ok w tl w' :
  set_entries TorrentEntry w tl = Ok w' →
  focus_ok w' ∧ (focus w' = None ↔ order w' = []).
Proof.
  intros (_ & _ & _ & Hf)%set_entries_spec. unfold focus_ok.
  rewrite Hf. destruct (order w') as [|x o]; [done|].
  destruct (focus_in (focus w) (x :: o)) eqn:Hfi.
  - apply Is_true_true, focus_in_spec in Hfi as (y & -> & Hy). done.
  - split; [left|done].
Qed.

(** X3.  The focus is never a dangling reference: after [set_entries] it is
    [None] exactly when the order is empty and otherwise an identifier of
    the order; [set_sort] and [set_focus] keep a focus that is in the order
    in the order. *)
Theorem focus_never_dangles :
  (∀ w tl w', set_entries TorrentEntry w tl = Ok w' →
     focus_ok w' ∧ (focus w' = None ↔ order w' = [])) ∧
  (∀ key rev w w', set_sort key rev w = Ok w' → focus_ok w → focus_ok w') ∧
  (∀ p w w', set_focus p w = Ok w' →
     focus w' = Some p ∧ p ∈ order w' ∧ order w' = order w ∧
     entries w' = entries w ∧ sorts w' = sorts w).
Proof.
  split_and!.
  - apply set_entries_focus_ok.
  - intros key rev w w' (k & r & _ & _ & _ & _ & Hf & Hs)%set_sort_spec.
    apply do_sort_perm in Hs. unfold focus_ok. rewrite Hf.
    destruct (focus w); [|done]. by rewrite Hs.
  - intros p w w'. unfold set_focus. case_bool_decide; [|done].
    by intros [= <-].
Qed.

Lemma evict_drop (ss : list (string * bool)) :
  evict ss = drop (length ss - 2) ss.
Proof.
  induction ss as [|s ss IH]; [done|]. simpl.
  case_bool_decide as Hl.
  - rewrite IH. destruct ss as [|s1 [|s2 ss]]; simpl in *; try lia.
    by rewrite Nat.sub_0_r.
  - destruct ss as [|s1 [|s2 ss]]; simpl in *; try done. lia.
Qed.

Lemma drop_two_app {A} (l cs : list A) :
  drop (length (drop (length l - 2) l ++ cs) - 2) (drop (length l - 2) l ++ cs)
  = drop (length (l ++ cs) - 2) (l ++ cs).
Proof.
  destruct (decide (length l ≤ 2)%nat) as [Hle|Hgt].
  - by replace (length l - 2)%nat with 0%nat by lia.
  - assert (l ++ cs = take (length l - 2) l ++ (drop (length l - 2) l ++ cs))
      as Heq by by rewrite app_assoc, take_drop.
    rewrite (length_app l cs), Heq.
    rewrite (drop_app_ge (take _ _)) by (rewrite length_take; lia).
    f_equal. rewrite length_app, length_drop, length_take. lia.
Qed.

Lemma set_sorts_explicit cs w w' :
  set_sorts (explicit cs) w = Ok w' → cs ≠ [] →
  sorts w' = drop (length (sorts w ++ cs) - 2) (sorts w ++ cs).
Proof.
  revert w. induction cs as [|c cs IH]; intros w H Hne; [done|].
  simpl in H. inv_bind H.
  apply set_sort_spec in Ha as (k & r & -> & -> & Hs & _).
  rewrite evict_drop in Hs.
  destruct cs as [|c' cs].
  - simpl in H. injection H as <-. by rewrite Hs; destruct c.
  - rewrite (IH _ H) by done. rewrite Hs.
    replace (sorts w ++ c :: c' :: cs) with ((sorts w ++ [c]) ++ c' :: cs)
      by by rewrite <-app_assoc.
    destruct c as [k r]. simpl. apply drop_two_app.
Qed.

(** X4.  The sort history is bounded: after any [set_sort] it holds at most
    two criteria, and after a run of calls with explicit arguments it holds
    exactly the last two criteria of the old history followed by the
    calls. *)
Theorem sort_history_bound :
  (∀ key rev w w', set_sort key rev w = Ok w' →
     (1 ≤ length (sorts w') ≤ 2)%nat) ∧
  (∀ cs w w', set_sorts (explicit cs) w = Ok w' → cs ≠ [] →
     sorts w' = drop (length (sorts w ++ cs) - 2) (sorts w ++ cs)).
Proof.
  split.
  - intros key rev w w' (k & r & _ & _ & Hs)%set_sort_sorts. rewrite Hs.
    destruct (last (sorts w)); simpl; lia.
  - apply set_sorts_explicit.
Qed.

(** X5.  Reconciling twice with the same raw list changes nothing the second
    time: the walker after the first [set_entries] is returned as it is. *)
Theorem set_entries_idempotent w tl w1 :
  set_entries TorrentEntry w tl = Ok w1 →
  set_entries TorrentEntry w1 tl = Ok w1.
Proof.
  intros H. destruct (set_entries_spec _ _ _ _ H) as (Hb & Hs & Hss & Hf).
  unfold set_entries. rewrite Hb. simpl. rewrite Hss, Hs. simpl.
  destruct w1 as [es o ss f]. cbn [entries order sorts focus] in *.
  subst ss. f_equal. f_equal. destruct o as [|x o]; [done|].
  destruct (focus_in (focus w) (x :: o)) eqn:Hfi; subst f.
  - by rewrite Hfi.
  - simpl. rewrite bool_decide_true; [done|left].
Qed.

End WalkerState.

(** *** Sorting what is sorted, and what a completed sort tells *)

Section SortMore.
Context {A : Type} (key : A → result value) (rev : bool).

Lemma sortM_sorted_id {K} (lt : K → K → result bool) (l : list (K * A)) :
  StronglySorted (le_pair lt) l → sortM lt l = Ok l.
Proof.
  induction 1 as [|x l Hs IH Hx]; [done|]. simpl. rewrite IH. simpl.
  destruct l as [|y l']; [done|]. simpl.
  apply Forall_cons in Hx as [Hxy _]. unfold le_pair in Hxy. by rewrite Hxy.
Qed.


Lemma list_sort_sorted_id (l : list A) :
  Forall (λ x, ∃ k, key x = Ok k) l →
  StronglySorted (key_le key rev) l → list_sort key rev l = Ok l.
Proof.
  intros Hk Hs. unfold list_sort.
  destruct (compute_keys_total key (λ _, True) l) as (ks & Hks & _).
  { eapply Forall_impl; [exact Hk|]. naive_solver. }
  rewrite Hks. simpl. apply compute_keys_Ok in Hks.
  destruct (zip_keys key l ks Hks) as [Hl Hz].
  rewrite sortM_sorted_id; [simpl; by rewrite Hl|].
  clear Hl Hk. induction Hks as [|x k l ks Hx Hks IH]; [constructor|].
  apply StronglySorted_inv in Hs as [Hs Hall].
  apply Forall_cons in Hz as [_ Hz]. simpl. constructor; [by apply IH|].
  apply Forall_forall. intros [k' y] Hin. unfold le_pair. simpl.
  rewrite Forall_forall in Hz. rewrite Forall_forall in Hall. pose proof (Hz _ Hin) as Hy. simpl in Hy.
  assert (y ∈ l) as Hyl.
  { apply (list_elem_of_fmap_2 snd) in Hin. simpl in Hin.
    by rewrite (proj1 (zip_keys key l ks Hks)) in Hin. }
  specialize (Hall _ Hyl). unfold key_le in Hall.
  by rewrite Hx, Hy in Hall.
Qed.

Lemma same_type_trans a b c : same_type a b → same_type b c → same_type a c.
Proof. by destruct a, b, c. Qed.

Lemma same_type_sym a b : same_type a b → same_type b a.
Proof. by destruct a, b. Qed.

Lemma insertM_same_type (x : value * A) l r :
  insertM (cmp_lt rev) x l = Ok r →
  Forall (λ p, Forall (λ q, same_type p.1 q.1) l) l →
  Forall (λ p, same_type x.1 p.1) l.
Proof.
  destruct l as [|y l]; [constructor|]. simpl. intros H Hl. inv_bind H.
  apply cmp_lt_same_type in Ha. apply Forall_cons in Hl as [Hy _].
  eapply Forall_impl; [exact Hy|]. intros p Hp. simpl in Hp.
  eauto using same_type_trans, same_type_sym.
Qed.

Lemma sortM_same_type (l r : list (value * A)) :
  sortM (cmp_lt rev) l = Ok r →
  Forall (λ p, Forall (λ q, same_type p.1 q.1) l) l.
Proof.
  revert r. induction l as [|x l IH]; intros r H; [constructor|].
  simpl in H. inv_bind H. specialize (IH _ Ha).
  pose proof (sortM_perm _ _ _ Ha) as Hperm.
  assert (Forall (λ p, same_type x.1 p.1) l) as Hx.
  { rewrite <-Hperm. eapply insertM_same_type; [exact H|].
    rewrite Hperm. eapply Forall_impl; [exact IH|].
    intros p Hp. by rewrite Hperm. }
  constructor.
  - constructor; [by destruct (x.1)|done].
  - rewrite Forall_forall in IH. rewrite Forall_forall in Hx.
    apply Forall_forall. intros p Hp.
    constructor; [by apply same_type_sym, Hx|by apply IH].
Qed.

(** A completed sort had every key and keys of one type only. *)
Lemma list_sort_same_type (l r : list A) x y :
  list_sort key rev l = Ok r → x ∈ l → y ∈ l →
  ∃ a b, key x = Ok a ∧ key y = Ok b ∧ same_type a b.
Proof.
  unfold list_sort. intros H Hx Hy. inv_bind H. inv_bind H. clear H.
  apply compute_keys_Ok in Ha. destruct (zip_keys key l a Ha) as [Hl Hz].
  apply sortM_same_type in Ha0. rewrite Forall_forall in Ha0.
  rewrite Forall_forall in Hz.
  rewrite <-Hl in Hx, Hy.
  apply list_elem_of_fmap in Hx as ([a1 x'] & -> & Hx).
  apply list_elem_of_fmap in Hy as ([b1 y'] & -> & Hy).
  exists a1, b1. split_and!; [by apply (Hz _ Hx)|by apply (Hz _ Hy)|].
  pose proof (Ha0 _ Hx) as H. rewrite Forall_forall in H. by apply (H _ Hy).
Qed.

End SortMore.

Section WalkerRows.
Context {widget : Type} (TorrentEntry : torrent → result widget).
Implicit Types (w : TorrentListWalker widget) (tl : list torrent).
Implicit Types (es d : dict (torrent * widget)).

Lemma Forall_dict_set_key {V} (P : value * V → Prop) k (v : V) (d : dict V) :
  P (k, v) → Forall P d → Forall P (dict_set k v d).
Proof.
  intros Hv. induction 1 as [|[k' v'] d Hp Hd IH]; simpl.
  - by repeat constructor.
  - destruct (decide (k = k')) as [->|]; constructor; eauto.
Qed.

Lemma dict_get_absent {V} x (d : dict V) :
  x ∉ dict_keys d → dict_get x d = Raise (KeyError x).
Proof.
  unfold dict_keys. induction d as [|[k v] d IH]; csimpl; [done|].
  rewrite not_elem_of_cons. intros [Hne Hx].
  rewrite decide_False by done. by apply IH.
Qed.

Lemma dict_get_NoDup {V} x (v : V) (d : dict V) :
  NoDup (dict_keys d) → (x, v) ∈ d → dict_get x d = Ok v.
Proof.
  unfold dict_keys. induction d as [|[k v'] d IH]; csimpl; intros Hnd Hin.
  - by apply elem_of_nil in Hin.
  - apply NoDup_cons in Hnd as [Hk Hnd].
    apply elem_of_cons in Hin as [[= <- <-]|Hin].
    + by rewrite decide_True.
    + rewrite decide_False; [by apply IH|]. intros <-. apply Hk.
      by apply (list_elem_of_fmap_2 fst) in Hin.
Qed.

Lemma build_entries_rows tl0 tl d es :
  build_entries TorrentEntry tl d = Ok es →
  (∀ t, t ∈ tl → t ∈ tl0) → Forall (row_of TorrentEntry tl0) d → Forall (row_of TorrentEntry tl0) es.
Proof.
  revert d. induction tl as [|t tl IH]; intros d H Hsub Hd; simpl in H.
  - by injection H as <-.
  - inv_bind H. inv_bind H. unfold getitem in Ha.
    destruct (t !! "id") as [k|] eqn:Hk; [|done]. injection Ha as <-.
    eapply IH; [exact H| |].
    + intros t' Ht'. apply Hsub. by right.
    + apply Forall_dict_set_key; [|done]. split_and!; [done| |done].
      apply Hsub. left.
Qed.

Lemma build_entries_Ok_inv tl d es :
  build_entries TorrentEntry tl d = Ok es →
  Forall (λ t : torrent, is_Some (t !! "id") ∧ renders TorrentEntry t) tl.
Proof.
  revert d. induction tl as [|t tl IH]; intros d H; simpl in H; [constructor|].
  inv_bind H. inv_bind H. unfold getitem in Ha.
  destruct (t !! "id") as [k|] eqn:Hk; [|done].
  constructor; [|by eapply IH]. split; [by eexists|].
  unfold renders. by rewrite Ha0.
Qed.

(** X6.  Every position of the order can be looked up: after [set_entries]
    the widget [__getitem__] returns for a listed identifier was built from
    a torrent of the raw list that carries this identifier; an identifier
    that is not listed gives [KeyError]. *)
Theorem rows_come_from_the_list w tl w' :
  set_entries TorrentEntry w tl = Ok w' →
  (∀ x, x ∈ order w' →
     ∃ t wd, walker_getitem x w' = Ok wd ∧ TorrentEntry t = Ok wd ∧
             t ∈ tl ∧ t !! "id" = Some x) ∧
  (∀ x, x ∉ order w' → walker_getitem x w' = Raise (KeyError x)).
Proof.
  intros H. destruct (set_entries_order _ _ _ _ H) as [[_ Hperm] _].
  destruct (set_entries_spec _ _ _ _ H) as (Hb & _).
  apply (build_entries_rows tl) in Hb; [|done|constructor].
  unfold walker_getitem. split.
  - intros x Hx. rewrite Hperm in Hx.
    destruct (dict_get_elem _ _ Hx) as ([t wd] & Hget & Hin).
    rewrite Forall_forall in Hb. destruct (Hb _ Hin) as (? & ? & ?).
    exists t, wd. by rewrite Hget.
  - intros x Hx. rewrite Hperm in Hx. by rewrite dict_get_absent.
Qed.

Lemma do_sort_keys es ss o o' s x y :
  do_sort es ss o = Ok o' → s ∈ ss → x ∈ o → y ∈ o →
  ∃ a b, sort_field es s.1 x = Ok a ∧ sort_field es s.1 y = Ok b ∧
         same_type a b.
Proof.
  revert o. induction ss as [|[key rev] ss IH]; intros o H Hs Hx Hy.
  - by apply elem_of_nil in Hs.
  - simpl in H. inv_bind H.
    apply elem_of_cons in Hs as [->|Hs].
    + by eapply list_sort_same_type.
    + apply list_sort_spec in Ha as (Hp & _).
      eapply IH; [exact H|done|by rewrite Hp..].
Qed.

(** X7.  Nothing is skipped silently: when [set_entries] completes, every
    torrent of the raw list has an identifier and could be rendered, and each
    field of the sort history is present in every stored torrent. *)
Theorem set_entries_accepts_only_complete_data w tl w' :
  set_entries TorrentEntry w tl = Ok w' →
  Forall (λ t : torrent, is_Some (t !! "id") ∧ renders TorrentEntry t) tl ∧
  ∀ s x t wd,
    s ∈ sorts w → (x, (t, wd)) ∈ entries w' → is_Some (t !! s.1).
Proof.
  intros H. destruct (set_entries_spec _ _ _ _ H) as (Hb & Hs & _).
  split; [by eapply build_entries_Ok_inv|].
  intros s x t wd Hin Hx.
  pose proof (build_entries_keys _ _ _ _ Hb (NoDup_nil_2)) as [Hnd _].
  assert (x ∈ dict_keys (entries w')) as Hk
    by apply (list_elem_of_fmap_2 fst _ _ Hx).
  destruct (do_sort_keys _ _ _ _ s x x Hs Hin Hk Hk) as (a & _ & Ha & _).
  unfold sort_field, getitem in Ha.
  rewrite (dict_get_NoDup _ _ _ Hnd Hx) in Ha. simpl in Ha.
  by destruct (t !! s.1).
Qed.

(** X8.  Choosing the sort order that is already the newest one moves
    nothing: after a [set_sort], a further [set_sort] that names the same key
    and direction, or leaves them out, completes and leaves the order, the
    entries and the focus as they are. *)
Theorem resort_by_same_criterion_keeps_order key rev w w1 :
  set_sort key rev w = Ok w1 →
  ∃ k r, last (sorts w1) = Some (k, r) ∧
    ∀ key' rev',
      (key' = None ∨ key' = Some k) → (rev' = None ∨ rev' = Some r) →
      set_sort key' rev' w1
      = Ok {| entries := entries w1; order := order w1;
              sorts := [(k, r); (k, r)]; focus := focus w1 |}.
Proof.
  intros H. destruct (set_sort_sorts _ _ _ _ H) as (k & r & _ & _ & Hs).
  pose proof (set_sort_sorted _ _ _ _ H) as Hsorted.
  apply set_sort_spec in H as (_ & _ & _ & _ & _ & He & _ & Hd).
  rewrite <-He in Hd. exists k, r.
  assert (last (sorts w1) = Some (k, r)) as Hl
    by (rewrite Hs; by destruct (last (sorts w))).
  split; [done|]. intros key' rev' Hk Hr. unfold set_sort.
  assert (sort_key w1 = Ok k) as Hsk by (unfold sort_key; by rewrite Hl).
  assert (sort_reversed w1 = Ok r) as Hsr
    by (unfold sort_reversed; by rewrite Hl).
  assert ((match key' with Some k => Ok k | None => sort_key w1 end) = Ok k)
    as -> by (by destruct Hk as [->| ->]).
  assert ((match rev' with Some r => Ok r | None => sort_reversed w1 end) = Ok r)
    as -> by (by destruct Hr as [->| ->]).
  simpl. rewrite evict_snoc, Hl.
  assert (list_sort (sort_field (entries w1) k) r (order w1) = Ok (order w1))
    as Hid.
  { apply list_sort_sorted_id.
    - apply Forall_forall. intros x Hx.
      assert ((k, r) ∈ sorts w1) as Hin.
      { rewrite Hs. destruct (last (sorts w)); set_solver. }
      apply do_sort_perm in Hd as Hp. rewrite Hp in Hx.
      destruct (do_sort_keys _ _ _ _ _ x x Hd Hin Hx Hx) as (a & _ & Ha & _).
      eauto.
    - unfold sorted_by in Hsorted. rewrite Hs in Hsorted.
      destruct (last (sorts w)); [by destruct Hsorted|done]. }
  simpl. rewrite Hid. simpl. by rewrite Hid.
Qed.

End WalkerRows.

(** ** console.py: reconciling a poll *)

Section ConsoleMore.
Context {widget detail_win chrome : Type}.
Context (TorrentEntry : torrent → result widget).
Context (TorrentDetailWindow : torrent → result detail_win).
Context (torrent_info : detail_win → torrent).
Context (set_data : torrent → detail_win → result detail_win).
Context (update_chrome :
  list torrent → torrent → torrent → Q → chrome → result chrome).
Implicit Types (c : Console (widget := widget) (detail_win := detail_win)
                      (chrome := chrome)).
Implicit Types (t : bridge (Console (widget := widget)
                      (detail_win := detail_win) (chrome := chrome))
                      torrent daemon).

Lemma jump_to_top_spec c :
  order_ok (data c) →
  ∃ d, jump_to_top c = Ok (with_data d c) ∧
       entries d = entries (data c) ∧ order d = order (data c) ∧
       sorts d = sorts (data c) ∧
       focus d = match order (data c) with
                 | [] => focus (data c)
                 | x :: _ => Some x
                 end.
Proof.
  intros [_ Hperm]. unfold jump_to_top, len, positions.
  assert (length (order (data c)) = length (entries (data c))) as Hlen.
  { rewrite Hperm. unfold dict_keys. by rewrite length_fmap. }
  destruct (order (data c)) as [|x o] eqn:Ho.
  - rewrite bool_decide_false by (simpl in Hlen; lia).
    exists (data c). by destruct c.
  - rewrite bool_decide_true by (simpl in Hlen; lia).
    unfold set_focus. rewrite Ho, bool_decide_true by left.
    simpl. eexists. split; [done|]. simpl. by rewrite ?Ho.
Qed.

Lemma render_torrents_spec tl t t' :
  render_torrents TorrentEntry torrent_info set_data tl t = Ok t' →
  ∃ d d',
    set_entries TorrentEntry (data (ui t)) tl = Ok d ∧
    jump_if_unfocused (with_data d (ui t)) = Ok (with_data d' (ui t)) ∧
    ui t' = with_data d' (ui t) ∧
    entries d' = entries d ∧ order d' = order d ∧ sorts d' = sorts d ∧
    focus d' = (if decide (fr_focus (ui t) = Body) then focus d
                else head (order d)) ∧
    running t' = running t ∧ failed t' = failed t ∧ log t' = log t ∧
    match shown (ui t) with
    | None => queue t' = queue t ∧ submitted t' = submitted t
    | Some dwin =>
        ∃ win tid,
          windows (ui t) !! dwin = Some win ∧
          torrent_info win !! "id" = Some tid ∧
          let it := {| func := get_torrent_details tid;
                       callback := refresh_cb set_data dwin |} in
          queue t' = queue t ++ [it] ∧ submitted t' = submitted t ++ [it]
    end.
Proof.
  unfold render_torrents. intros H. inv_bind H. rename a into d.
  destruct (set_entries_order _ _ _ _ Ha) as [Hok _].
  destruct (set_entries_spec _ _ _ _ Ha) as (_ & _ & _ & Hfoc).
  assert (∃ d', jump_if_unfocused (with_data d (ui t)) = Ok (with_data d' (ui t))
            ∧ entries d' = entries d ∧ order d' = order d ∧ sorts d' = sorts d
            ∧ focus d' = (if decide (fr_focus (ui t) = Body) then focus d
                          else head (order d))) as (d' & Hj & He & Ho & Hs & Hf).
  { unfold jump_if_unfocused. simpl.
    destruct (decide (fr_focus (ui t) = Body)) as [Hb|Hb].
    - exists d. by destruct (ui t).
    - destruct (jump_to_top_spec (with_data d (ui t)) Hok)
        as (d' & Hj & He & Ho & Hs & Hf). simpl in *.
      exists d'. split_and!; try done.
      rewrite Hf, Hfoc. by destruct (order d). }
  rewrite Hj in H. simpl in H. exists d, d'.
  destruct (shown (ui t)) as [dwin|] eqn:Hsh.
  - destruct (windows (ui t) !! dwin) as [win|] eqn:Hw; [|done].
    inv_bind H. injection H as <-. unfold getitem in Ha0.
    destruct (torrent_info win !! "id") as [tid|] eqn:Hid; [|done].
    injection Ha0 as <-. split_and!; try done. by exists win, tid.
  - injection H as <-. by split_and!.
Qed.

(** X9.  Where the cursor is after a poll has been reconciled.  The list is
    what [set_entries] makes of the raw list.  While the cursor is in the
    list body the focus is the one [set_entries] leaves; while it is in the
    header or footer the focus is forced to the first row of the new order.
    The frame focus itself is not moved. *)
Theorem render_torrents_cursor tl t t' :
  render_torrents TorrentEntry torrent_info set_data tl t = Ok t' →
  ∃ d, set_entries TorrentEntry (data (ui t)) tl = Ok d ∧
       entries (data (ui t')) = entries d ∧
       order (data (ui t')) = order d ∧
       sorts (data (ui t')) = sorts (data (ui t)) ∧
       (fr_focus (ui t) = Body → focus (data (ui t')) = focus d) ∧
       (fr_focus (ui t) ≠ Body → focus (data (ui t')) = head (order d)) ∧
       fr_focus (ui t') = fr_focus (ui t) ∧
       focus_ok (data (ui t')).
Proof.
  intros (d & d' & Hd & _ & Hui & He & Ho & Hs & Hf & _)%render_torrents_spec.
  exists d. rewrite Hui. simpl.
  destruct (set_entries_spec _ _ _ _ Hd) as (_ & _ & Hss & _).
  destruct (set_entries_focus_ok TorrentEntry _ _ _ Hd) as [Hfo Hnone].
  split_and!; try done; try congruence.
  - intros Hb. by rewrite Hf, decide_True.
  - intros Hb. by rewrite Hf, decide_False.
  - unfold focus_ok. rewrite Hf, Ho.
    destruct (decide (fr_focus (ui t) = Body)); [done|].
    destruct (order d); [done|left].
Qed.

(** X10.  The refresh of an open detail window: reconciling a poll sends
    exactly one work item to the bridge when a detail window is shown, the
    request for the details of that window's torrent with the window's own
    [set_data] as continuation, and none when the list is shown.  It never
    touches the item in progress, the failure state or the log. *)
Theorem render_torrents_requests tl t t' :
  render_torrents TorrentEntry torrent_info set_data tl t = Ok t' →
  running t' = running t ∧ failed t' = failed t ∧ log t' = log t ∧
  match shown (ui t) with
  | None => queue t' = queue t ∧ submitted t' = submitted t
  | Some dwin =>
      ∃ win tid,
        windows (ui t) !! dwin = Some win ∧
        torrent_info win !! "id" = Some tid ∧
        let it := {| func := get_torrent_details tid;
                     callback := refresh_cb set_data dwin |} in
        queue t' = queue t ++ [it] ∧ submitted t' = submitted t ++ [it]
  end.
Proof.
  by intros (d & d' & _ & _ & _ & _ & _ & _ & _ & ? & ? & ? & ?)
       %render_torrents_spec.
Qed.

(** X11.  Reconciling never fails at the jump to the top: on a well-formed
    raw list [render_torrents] completes, provided a shown detail window
    exists and its torrent has an identifier. *)
Theorem render_torrents_completes tl t :
  well_formed TorrentEntry (sorts (data (ui t))) tl →
  (∀ dwin, shown (ui t) = Some dwin →
     ∃ win, windows (ui t) !! dwin = Some win ∧
            is_Some (torrent_info win !! "id")) →
  ∃ t', render_torrents TorrentEntry torrent_info set_data tl t = Ok t'.
Proof.
  intros Hwf Hwin. destruct (set_entries_complete _ _ _ Hwf) as [d Hd].
  unfold render_torrents. rewrite Hd. simpl.
  destruct (set_entries_order _ _ _ _ Hd) as [Hok _].
  unfold jump_if_unfocused. simpl.
  assert (∃ c', (if decide (fr_focus (ui t) = Body)
                 then Ok (with_data d (ui t))
                 else jump_to_top (with_data d (ui t))) = Ok c'
                ∧ shown c' = shown (ui t) ∧ windows c' = windows (ui t))
    as (c' & -> & Hsh & Hws).
  { destruct (decide (fr_focus (ui t) = Body)); [by eexists|].
    destruct (jump_to_top_spec (with_data d (ui t)) Hok) as (d' & -> & _).
    by eexists. }
  simpl. rewrite Hsh, Hws.
  destruct (shown (ui t)) as [dwin|]; [|eauto].
  destruct (Hwin dwin eq_refl) as (win & -> & [tid Htid]).
  unfold getitem. rewrite Htid. simpl. eauto.
Qed.

End ConsoleMore.

(** ** console.py: the polling loop beyond the failure path *)

Section PollMore.
Context {widget detail_win chrome : Type}.
Context (TorrentEntry : torrent → result widget).
Context (TorrentDetailWindow : torrent → result detail_win).
Context (torrent_info : detail_win → torrent).
Context (set_data : torrent → detail_win → result detail_win).
Context (update_chrome :
  list torrent → torrent → torrent → Q → chrome → result chrome).
Implicit Types (c : Console (widget := widget) (detail_win := detail_win)
                      (chrome := chrome)).
Implicit Types (t : bridge (Console (widget := widget)
                      (detail_win := detail_win) (chrome := chrome))
                      torrent daemon).

Lemma sleep_until_ge deadline now :
  (deadline <= sleep_until deadline now)%Q ∧ (now <= sleep_until deadline now)%Q.
Proof.
  unfold sleep_until. destruct (Qle_bool deadline now) eqn:E.
  - apply Qle_bool_iff in E. split; [done|apply Qle_refl].
  - split; [apply Qle_refl|]. apply Qlt_le_weak, Qnot_le_lt.
    intros H%Qle_bool_iff. congruence.
Qed.

Lemma update_data_iter_success it rd t dt r ses stats start t' :
  fetch rd = (dt, Ok (r, ses, stats)) →
  update_data_iter TorrentEntry torrent_info set_data update_chrome it rd t
  = Next start t' →
  ∃ t1 t2 tx,
    ui t1 = {| data := data (ui t); windows := windows (ui t);
               shown := shown (ui t); fr_focus := fr_focus (ui t);
               last_update := (it + dt)%Q; rates := rates (ui t);
               texts := texts (ui t) |} ∧
    queue t1 = queue t ∧ running t1 = running t ∧ failed t1 = failed t ∧
    submitted t1 = submitted t ∧ log t1 = log t ∧
    render_torrents TorrentEntry torrent_info set_data r t1 = Ok t2 ∧
    update_chrome r stats ses (it + dt - it)%Q (texts (ui t2)) = Ok tx ∧
    start = sleep_until (it + poll_period) (it + dt) ∧
    data (ui t') = data (ui t2) ∧ last_update (ui t') = last_update (ui t2) ∧
    rates (ui t') = rates (ui t2) ∧ queue t' = queue t2 ∧
    texts (ui t') = tx.
Proof.
  unfold update_data_iter. intros ->.
  match goal with |- context [render_torrents _ _ _ r ?x] => set (t1 := x) end.
  destruct (render_torrents _ _ _ r t1) as [t2|] eqn:Hr; [|done].
  destruct (update_chrome _ _ _ _ _) as [tx|] eqn:Hc; [|done].
  intros [= <- <-]. exists t1, t2, tx. by split_and!.
Qed.

(** X12.  A round whose three calls return and whose result can be merged
    is rate-limited: the next iteration is entered no sooner than the poll
    period after this one began, and not before the answers were in.  It
    records the time the answers came in as the time of the last update, and
    the list then shows exactly the identifiers of the answer, each once. *)
Theorem successful_round_is_rate_limited it rd t dt r ses stats start t' :
  fetch rd = (dt, Ok (r, ses, stats)) →
  update_data_iter TorrentEntry torrent_info set_data update_chrome it rd t
  = Next start t' →
  (it + poll_period <= start)%Q ∧ (it + dt <= start)%Q ∧
  last_update (ui t') = (it + dt)%Q ∧
  NoDup (order (data (ui t'))) ∧
  (∀ x, x ∈ order (data (ui t')) ↔ x ∈ ids r) ∧
  sorts (data (ui t')) = sorts (data (ui t)).
Proof.
  intros Hf H.
  destruct (update_data_iter_success _ _ _ _ _ _ _ _ _ Hf H)
    as (t1 & t2 & tx & Hui & _ & _ & _ & _ & _ & Hr & _ & -> & Hd & Hl & _).
  destruct (sleep_until_ge (it + poll_period) (it + dt)) as [? ?].
  apply render_torrents_spec in Hr
    as (d & d' & Hse & _ & Hui2 & He & Ho & Hs & _).
  rewrite Hui in Hse. simpl in Hse.
  destruct (set_entries_order _ _ _ _ Hse) as [[Hnd _] Hel].
  destruct (set_entries_spec _ _ _ _ Hse) as (_ & _ & Hss & _).
  rewrite Hd, Hl, Hui2, Hui. simpl. rewrite Ho, Hs.
  by split_and!.
Qed.

(** X13.  Only the three calls are guarded.  When they return but the
    answer cannot be reconciled, or the header and footer cannot be updated,
    the exception leaves [update_data]: the iteration does not go on to a
    next one. *)
Theorem unmergeable_round_ends_polling it rd t dt r ses stats :
  fetch rd = (dt, Ok (r, ses, stats)) →
  (∀ e, set_entries TorrentEntry (data (ui t)) r = Raise e →
     update_data_iter TorrentEntry torrent_info set_data update_chrome it rd t
     = Crash e) ∧
  (∀ t2 e,
     render_torrents TorrentEntry torrent_info set_data r
       {| queue := queue t; running := running t; failed := failed t;
          ui := {| data := data (ui t); windows := windows (ui t);
                   shown := shown (ui t); fr_focus := fr_focus (ui t);
                   last_update := (it + dt)%Q; rates := rates (ui t);
                   texts := texts (ui t) |};
          submitted := submitted t; log := log t |} = Ok t2 →
     update_chrome r stats ses (it + dt - it)%Q (texts (ui t2)) = Raise e →
     update_data_iter TorrentEntry torrent_info set_data update_chrome it rd t
     = Crash e).
Proof.
  intros Hf. unfold update_data_iter. rewrite Hf. split.
  - intros e He. unfold render_torrents. simpl. by rewrite He.
  - intros t2 e Hr Hc. by rewrite Hr, Hc.
Qed.

(** X14.  Only a round that succeeds resets the staleness clock.  After it,
    a tick at time [ct] displays the time since the answers came in and shows
    the delay message exactly when that is five seconds or more; after a
    round that failed, a tick still measures from the earlier update. *)
Theorem staleness_follows_last_success it rd t start t' ct :
  update_data_iter TorrentEntry torrent_info set_data update_chrome it rd t
  = Next start t' →
  let elapsed := (ct - (if round_fails rd then last_update (ui t)
                        else it + (fetch rd).1))%Q in
  let c := (track_update_time_iter ct (ui t')).2 in
  time_since_update (rates c) = elapsed ∧
  (rates_w (rates c) = ShowDelayMsg ↔ (5 <= elapsed)%Q) ∧
  (rates_w (rates c) = ShowCols ↔ (elapsed < 5)%Q).
Proof.
  intros H.
  assert (last_update (ui t') = if round_fails rd then last_update (ui t)
                                else (it + (fetch rd).1)%Q) as Hl.
  { unfold round_fails. destruct (fetch rd) as [dt [[[r ses] stats]|e]] eqn:Hf.
    - destruct (update_data_iter_success _ _ _ _ _ _ _ _ _ Hf H)
        as (t1 & t2 & tx & Hui & _ & _ & _ & _ & _ & Hr & _ & _ & _ & Hl & _).
      apply render_torrents_spec in Hr as (d & d' & _ & _ & Hui2 & _).
      by rewrite Hl, Hui2, Hui.
    - unfold update_data_iter in H. rewrite Hf in H. by injection H as _ <-. }
  simpl. rewrite Hl. split; [done|].
  destruct (Qle_bool 5 _) eqn:E.
  - apply Qle_bool_iff in E. split; [done|]. split; [done|].
    intros Hlt. by apply Qle_not_lt in E.
  - assert (¬ (5 <= ct - (if round_fails rd then last_update (ui t)
                          else it + (fetch rd).1))%Q) as Hn.
    { intros Hle%Qle_bool_iff. congruence. }
    split; [split; [done|by intros ?]|]. split; [|done].
    intros _. by apply Qnot_le_lt.
Qed.

End PollMore.

(** ** console.py: keys *)

Lemma count_q_cons now key evs :
  count_q ((now, key) :: evs)
  = ((if decide (key = "q") then 1 else 0) + count_q evs)%nat.
Proof.
  unfold count_q. rewrite filter_cons. simpl.
  by destruct (decide (key = "q")).
Qed.

Lemma press_keys_in_window t0 n evs :
  (1 ≤ n < 5)%nat →
  Forall (λ ev, (ev.1 - t0 <= 5)%Q) evs →
  press_keys evs {| q_time := Some t0; q_count := n |}
  = if bool_decide (5 ≤ n + count_q evs)%nat then ExitMainLoop
    else Go {| q_time := Some t0; q_count := n + count_q evs |}.
Proof.
  intros Hn Hevs. revert n Hn.
  induction Hevs as [|[now key] evs Hev _ IH]; intros n Hn.
  - unfold count_q. simpl. rewrite Nat.add_0_r.
    by rewrite bool_decide_false by lia.
  - rewrite count_q_cons. simpl. unfold keypress_quit. simpl in *.
    apply Qle_bool_iff in Hev. rewrite Hev. simpl.
    destruct (decide (key = "q")) as [->|Hne].
    + case_bool_decide as H5.
      * by rewrite bool_decide_true by lia.
      * rewrite IH by lia. by replace (S n + count_q evs)%nat
          with (n + (1 + count_q evs))%nat by lia.
    + by rewrite IH.
Qed.

(** X15.  The emergency exit.  Once a first [q] has been pressed, the fifth
    [q] that arrives within five seconds of the first one exits the main
    loop at the head of [keypress], whatever other keys are pressed in
    between and whatever the widgets do with them; fewer presses do not exit
    there.  A key that arrives
    more than five seconds after the first [q] starts the count afresh. *)
Theorem five_q_within_five_seconds_exit :
  (∀ t0 evs,
     Forall (λ ev, (ev.1 - t0 <= 5)%Q) evs →
     press_keys ((t0, "q") :: evs) quit_init
     = if bool_decide (4 ≤ count_q evs)%nat then ExitMainLoop
       else Go {| q_time := Some t0; q_count := 1 + count_q evs |}) ∧
  (∀ t0 n now key,
     (5 < now - t0)%Q → (n < 5)%nat →
     keypress_quit now key {| q_time := Some t0; q_count := n |}
     = Go (if decide (key = "q") then {| q_time := Some now; q_count := 1 |}
           else quit_init)) ∧
  (∀ now key, key ≠ "q" → keypress_quit now key quit_init = Go quit_init).
Proof.
  split_and!.
  - intros t0 evs Hevs. simpl. unfold keypress_quit. simpl.
    rewrite (press_keys_in_window t0 1 evs) by (done || lia).
    case_bool_decide; case_bool_decide; try lia; done.
  - intros t0 n now key Hlt Hn. unfold keypress_quit. simpl.
    destruct (Qle_bool (now - t0) 5) eqn:E.
    { apply Qle_bool_iff in E. by apply Qle_not_lt in E. }
    simpl. by destruct (decide (key = "q")).
  - intros now key Hne. unfold keypress_quit. simpl. by rewrite decide_False.
Qed.

Section KeysMore.
Context {widget detail_win chrome : Type}.
Implicit Types (c : Console (widget := widget) (detail_win := detail_win)
                      (chrome := chrome)).

(** X16.  Moving between header and list.  [down] from the header moves the
    frame focus to the body and the list focus to the first row; on an empty
    list it raises [StopIteration] instead.  [esc] from the body moves the
    frame focus to the header and the list focus to the first row, and
    leaves an empty list alone. *)
Theorem header_and_list_keys c :
  order_ok (data c) →
  (order (data c) = [] → on_down c = Raise StopIteration) ∧
  (∀ x o, order (data c) = x :: o →
     ∃ c', on_down c = Ok c' ∧ fr_focus c' = Body ∧
           focus (data c') = Some x ∧ order (data c') = order (data c) ∧
           entries (data c') = entries (data c)) ∧
  (∃ c', on_esc c = Ok c' ∧ fr_focus c' = Header ∧
         focus (data c') = match order (data c) with
                           | [] => focus (data c)
                           | x :: _ => Some x
                           end ∧
         order (data c') = order (data c) ∧
         entries (data c') = entries (data c)).
Proof.
  intros Hok. split_and!.
  - intros Ho. unfold on_down, positions. simpl. by rewrite Ho.
  - intros x o Ho. unfold on_down, positions, set_focus. simpl.
    rewrite Ho, bool_decide_true by left. simpl. eexists. by split_and!.
  - unfold on_esc, jump_if_unfocused. simpl.
    destruct (jump_to_top_spec (with_frame Header c) Hok)
      as (d & -> & He & Ho & _ & Hf).
    eexists. split; [done|]. simpl. by split_and!.
Qed.

End KeysMore.

(** ** console.py: a detail request through the bridge *)

Section DetailMore.
Context {widget detail_win chrome : Type}.
Context (TorrentDetailWindow : torrent → result detail_win).
Implicit Types (t : bridge (Console (widget := widget)
                      (detail_win := detail_win) (chrome := chrome))
                      torrent daemon).

(** X17.  Opening a detail window.  [show_torrent_detail] only queues one
    request and never fails itself.  When the drain task has run it on an
    idle bridge against a daemon that answers with at least one torrent, a
    new window built from the first torrent of the answer is shown, the
    windows that existed are kept, and the list is untouched.  When the
    daemon answers with no torrent, [rv[0]] raises [IndexError], and when the
    torrent has no identifier the producer raises [KeyError]; either ends
    the drain task with nothing shown. *)
Theorem detail_request_through_bridge te (srv : daemon) t :
  running t = None → failed t = None → queue t = [] →
  let t1 := show_torrent_detail TorrentDetailWindow te t in
  ∃ t2,
    drain_begin t1 = Some t2 ∧ ui t2 = ui t ∧
    (∀ tid te' rest win,
       te !! "id" = Some tid →
       srv tid = Ok (te' :: rest) → TorrentDetailWindow te' = Ok win →
       ∃ t3, drain_end srv t2 = Some t3 ∧
             let n := fresh (dom (windows (ui t))) in
             shown (ui t3) = Some n ∧
             windows (ui t3) = <[n := win]> (windows (ui t)) ∧
             windows (ui t) !! n = None ∧
             data (ui t3) = data (ui t) ∧
             queue t3 = [] ∧ running t3 = None ∧ failed t3 = None) ∧
    (∀ tid, te !! "id" = Some tid → srv tid = Ok [] →
       ∃ t3, drain_end srv t2 = Some t3 ∧ failed t3 = Some IndexError ∧
             ui t3 = ui t ∧ drain_begin t3 = None) ∧
    (te !! "id" = None →
       ∃ t3, drain_end srv t2 = Some t3 ∧
             failed t3 = Some (KeyError (VStr "id")) ∧
             ui t3 = ui t ∧ drain_begin t3 = None).
Proof.
  intros Hr Hf Hq. unfold show_torrent_detail.
  eexists. unfold drain_begin. simpl. rewrite Hf, Hr, Hq. simpl.
  split; [done|]. split; [done|].
  unfold drain_end, get_torrent_details, getitem. simpl. split_and!.
  - intros tid te' rest win Hid Hsrv Hwin. rewrite Hid. simpl.
    rewrite Hsrv. simpl.
    unfold show_cb. rewrite Hwin. simpl. eexists. split; [done|]. simpl.
    split_and!; try done.
    apply not_elem_of_dom, is_fresh.
  - intros tid Hid Hsrv. rewrite Hid. simpl. rewrite Hsrv. simpl.
    eexists. by split_and!.
  - intros Hid. rewrite Hid. simpl. eexists. by split_and!.
Qed.

End DetailMore.

(** ** util.py: [Bitset] *)

Lemma land_pow2 v k :
  (0 <= k)%Z → (Z.land v (2 ^ k) =? 0)%Z = negb (Z.testbit v k).
Proof.
  intros Hk. destruct (Z.testbit v k) eqn:Hb; simpl.
  - apply Z.eqb_neq. intros H0.
    assert (Z.testbit (Z.land v (2 ^ k)) k = true) as Ht.
    { by rewrite Z.land_spec, Hb, Z.pow2_bits_true. }
    rewrite H0, Z.bits_0 in Ht. done.
  - apply Z.eqb_eq, Z.bits_inj'. intros n Hn.
    rewrite Z.land_spec, Z.bits_0.
    destruct (decide (n = k)) as [->|Hne].
    + by rewrite Hb.
    + rewrite Z.pow2_bits_false by done. apply andb_false_r.
Qed.

Lemma byte_to_bits_lookup b (j : nat) :
  (j < 8)%nat → byte_to_bits b !! j = Some (Z.testbit b (7 - Z.of_nat j)).
Proof.
  intros Hj. unfold byte_to_bits.
  do 8 (destruct j as [|j]; [simpl; f_equal;
    match goal with |- context [Z.land _ ?m] =>
      let k := eval vm_compute in (Z.log2 m) in
      change m with (2 ^ k)%Z end;
    rewrite land_pow2 by lia; by rewrite negb_involutive|]).
  lia.
Qed.

Lemma byte_to_bits_length b : length (byte_to_bits b) = 8%nat.
Proof. done. Qed.

Lemma bytes_to_bits_lookup bytes (i j : nat) v :
  bytes !! i = Some v → (j < 8)%nat →
  bytes_to_bits bytes !! (8 * i + j)%nat = Some (Z.testbit v (7 - Z.of_nat j)).
Proof.
  revert i. induction bytes as [|b bytes IH]; intros i Hi Hj; [done|].
  change (bytes_to_bits (b :: bytes))
    with (byte_to_bits b ++ bytes_to_bits bytes).
  destruct i as [|i]; simpl in Hi.
  - injection Hi as ->. rewrite lookup_app_l by (rewrite byte_to_bits_length; lia).
    replace (8 * 0 + j)%nat with j by lia. by apply byte_to_bits_lookup.
  - rewrite lookup_app_r by (rewrite byte_to_bits_length; lia).
    rewrite byte_to_bits_length.
    replace (8 * S i + j - 8)%nat with (8 * i + j)%nat by lia. by apply IH.
Qed.

Lemma bytes_to_bits_length bytes :
  length (bytes_to_bits bytes) = (8 * length bytes)%nat.
Proof.
  induction bytes as [|b bytes IH]; [done|].
  change (bytes_to_bits (b :: bytes))
    with (byte_to_bits b ++ bytes_to_bits bytes).
  rewrite length_app, byte_to_bits_length, IH. simpl. lia.
Qed.

Lemma shiftr_mask bit :
  (0 <= bit < 8)%Z → Z.shiftr 0x80 bit = (2 ^ (7 - bit))%Z.
Proof.
  intros H.
  assert (bit = 0 ∨ bit = 1 ∨ bit = 2 ∨ bit = 3 ∨ bit = 4 ∨ bit = 5 ∨ bit = 6
          ∨ bit = 7)%Z as Hc by lia.
  by destruct Hc as [->|[->|[->|[->|[->|[->|[->| ->]]]]]]].
Qed.

Ltac case_cmp :=
  match goal with
  | |- context [(?a <? ?b)%Z] => destruct (Z.ltb_spec a b)
  | |- context [(?a <=? ?b)%Z] => destruct (Z.leb_spec a b)
  end.

Lemma py_getitem_nonneg {A} (l : list A) (i : nat) x :
  l !! i = Some x → py_getitem l (Z.of_nat i) = Ok x.
Proof.
  intros Hi. unfold py_getitem. apply lookup_lt_Some in Hi as Hlt.
  rewrite (proj2 (Z.ltb_ge _ _)) by lia.
  rewrite (proj2 (Z.leb_le _ _)) by lia.
  rewrite (proj2 (Z.ltb_lt _ _)) by lia. simpl.
  by rewrite Nat2Z.id, Hi.
Qed.

(** X18.  [Bitset] is a consistent sequence: indexing a position in range
    gives the bit that iteration yields at that position, bit 7 of each
    byte first; a negative index down to minus the length counts from the
    end; any other index raises [IndexError]; and the length is the number
    of bits iteration yields. *)
Theorem bitset_index_agrees_with_iteration bytes :
  (∀ ind, (0 <= ind < bitset_len bytes)%Z →
     ∃ b, bitset_getitem bytes ind = Ok b ∧
          bytes_to_bits bytes !! Z.to_nat ind = Some b) ∧
  (∀ ind, (- bitset_len bytes <= ind < 0)%Z →
     bitset_getitem bytes ind = bitset_getitem bytes (ind + bitset_len bytes)) ∧
  (∀ ind, (ind < - bitset_len bytes ∨ bitset_len bytes <= ind)%Z →
     bitset_getitem bytes ind = Raise IndexError) ∧
  Z.of_nat (length (bytes_to_bits bytes)) = bitset_len bytes.
Proof.
  unfold bitset_len. split_and!.
  - intros ind Hind. unfold bitset_getitem.
    assert (0 <= ind `div` 8 < Z.of_nat (length bytes))%Z as Hbi.
    { split; [apply Z.div_pos; lia|apply Z.div_lt_upper_bound; lia]. }
    assert (0 <= ind `mod` 8 < 8)%Z as Hbit by (apply Z.mod_pos_bound; lia).
    destruct (lookup_lt_is_Some_2 bytes (Z.to_nat (ind `div` 8))) as [v Hv];
      [lia|].
    pose proof (py_getitem_nonneg _ _ _ Hv) as Hg.
    rewrite Z2Nat.id in Hg by lia. cbv zeta. rewrite Hg. simpl.
    rewrite shiftr_mask, land_pow2, negb_involutive by lia.
    eexists. split; [done|].
    pose proof (bytes_to_bits_lookup bytes _ (Z.to_nat (ind `mod` 8)) v Hv)
      as Hl.
    rewrite Z2Nat.id in Hl by lia. rewrite <-Hl by lia. f_equal.
    pose proof (Z.div_mod ind 8). lia.
  - intros ind Hind. unfold bitset_getitem. cbv zeta.
    replace (ind + Z.of_nat (length bytes) * 8)%Z
      with (ind + 8 * Z.of_nat (length bytes))%Z by lia.
    rewrite Z.mul_comm, Z.div_add, Z.mod_add by lia.
    assert (- Z.of_nat (length bytes) <= ind `div` 8 < 0)%Z as Hbi.
    { split; [apply Z.div_le_lower_bound; lia|apply Z.div_lt_upper_bound; lia]. }
    assert (py_getitem bytes (ind `div` 8)
            = py_getitem bytes (ind `div` 8 + Z.of_nat (length bytes))) as ->.
    { unfold py_getitem. cbv zeta. repeat case_cmp; simpl; try lia; done. }
    done.
  - intros ind Hind. unfold bitset_getitem. cbv zeta.
    assert (py_getitem bytes (ind `div` 8) = Raise IndexError) as ->; [|done].
    unfold py_getitem. cbv zeta. destruct Hind as [Hlo|Hhi].
    + assert (ind `div` 8 < - Z.of_nat (length bytes))%Z
        by (apply Z.div_lt_upper_bound; lia).
      repeat case_cmp; simpl; try lia; done.
    + assert (Z.of_nat (length bytes) <= ind `div` 8)%Z
        by (apply Z.div_le_lower_bound; lia).
      repeat case_cmp; simpl; try lia; done.
  - rewrite bytes_to_bits_length. lia.
Qed.

(** ** util.py and console.py: popup lines *)

Lemma substring_0_length s : String.substring 0 (String.length s) s = s.
Proof. induction s as [|a s IH]; [done|]. simpl. by rewrite IH. Qed.

Lemma append_String a x y :
  String.append (String a x) y = String a (String.append x y).
Proof. done. Qed.

Lemma substring_split s n :
  String.append (String.substring 0 n s)
    (String.append (String.substring n 1 s)
       (String.substring (n + 1) (String.length s - (n + 1)) s)) = s.
Proof.
  revert n. induction s as [|a s IH]; intros n.
  - by destruct n.
  - destruct n as [|n].
    + simpl String.length.
      replace (S (String.length s) - (0 + 1))%nat with (String.length s) by lia.
      simpl. rewrite substring_0_length. by destruct s.
    + simpl. rewrite append_String. f_equal. apply IH.
Qed.

Lemma layout_Some text ch base ul m :
  make_underline_layout text (Some ch) base ul = Some m →
  ∃ ind a b c,
    m = [Styled base a; Styled (Some ul) b; Styled base c] ∧
    String.append a (String.append b c) = text ∧
    String.index 0 ch text = Some ind ∧
    a = String.substring 0 ind text ∧
    (String.length ch = 1%nat → b = ch) ∧
    (∀ p, (p < ind)%nat → String.substring p (String.length ch) text ≠ ch).
Proof.
  simpl. destruct (String.index 0 ch text) as [ind|] eqn:Hi; [|done].
  simpl. intros [= <-].
  exists ind. do 3 eexists. split_and!; [done|apply substring_split|done..| |].
  - intros Hl. rewrite <-Hl. by apply (String.index_correct1 0).
  - intros p Hp. apply (String.index_correct2 0 _ _ _ Hi); lia.
Qed.

Lemma layout_None text ch base ul :
  make_underline_layout text (Some ch) base ul = None ↔
  String.index 0 ch text = None.
Proof. simpl. by destruct (String.index 0 ch text). Qed.

(** X19.  [make_underline_layout] cuts the text at the first occurrence of
    the character: the three pieces, put together again, are the text; the
    underlined piece is the character; it does not occur earlier.  It fails
    exactly when the character does not occur in the text.  Without a
    character the text is returned as it is. *)
Theorem underline_layout_cuts_at_first_occurrence text base ul :
  make_underline_layout text None base ul = Some [Plain text] ∧
  (∀ ch, make_underline_layout text (Some ch) base ul = None ↔
         String.index 0 ch text = None) ∧
  (∀ ch m, make_underline_layout text (Some ch) base ul = Some m →
     ∃ ind a b c,
       m = [Styled base a; Styled (Some ul) b; Styled base c] ∧
       String.append a (String.append b c) = text ∧
       String.index 0 ch text = Some ind ∧
       a = String.substring 0 ind text ∧
       (String.length ch = 1%nat → b = ch) ∧
       (∀ p, (p < ind)%nat →
             String.substring p (String.length ch) text ≠ ch)).
Proof.
  split_and!; [done|..].
  - intros ch. apply layout_None.
  - intros ch m. apply layout_Some.
Qed.

(** X20.  [PopupItem] validates before it lays out: when construction
    succeeds with a trigger, the trigger is one character of the text and a
    callback is present, the markup underlines that character and spells
    the text, and the line is selectable; without a trigger the line shows
    the plain text and is not selectable.  The layout itself never fails
    once the checks have passed. *)
Theorem popup_item_checks_then_lays_out {C} text tr (cb : option C) :
  popup_item text tr cb ≠ inl "substring not found" ∧
  ∀ it, popup_item text tr cb = inr it →
    item_text it = text ∧ trigger it = tr ∧ callback_of it = cb ∧
    match tr with
    | None => item_selectable it = false ∧ item_markup it = [Plain text]
    | Some ch =>
        item_selectable it = true ∧ String.length ch = 1%nat ∧ is_Some cb ∧
        ∃ a c, item_markup it
               = [Styled None a; Styled (Some "underline") ch; Styled None c] ∧
               String.append a (String.append ch c) = text
    end.
Proof.
  unfold popup_item. destruct tr as [ch|]; cbv zeta.
  - destruct (String.length ch =? 1)%nat eqn:Hl; cbn [negb]; [|done].
    apply Nat.eqb_eq in Hl.
    case_bool_decide as Hi; [done|].
    case_bool_decide as Hc; [done|].
    destruct (make_underline_layout text (Some ch) None "underline") as [m|]
      eqn:Hm.
    + split; [done|]. intros it [= <-]. cbn [item_text trigger callback_of
        item_selectable item_markup].
      destruct (layout_Some _ _ _ _ _ Hm)
        as (ind & a & b & c & -> & Hcat & _ & _ & Hb & _).
      rewrite (Hb Hl) in *. split_and!; try done.
      * by destruct cb.
      * by exists a, c.
    + exfalso. apply Hi. by apply (layout_None text ch None "underline").
  - split; [done|]. by intros it [= <-].
Qed.

(** ** console.py: the trigger table of a popup *)

Lemma lower_char_idemp a : lower_char (lower_char a) = lower_char a.
Proof. by destruct a as [[] [] [] [] [] [] [] []]. Qed.

Lemma lower_idemp s : lower (lower s) = lower s.
Proof.
  induction s as [|a s IH]; [done|]. simpl. by rewrite lower_char_idemp, IH.
Qed.

Lemma dict_keys_set_fresh {V} k (v : V) (d : dict V) :
  k ∉ dict_keys d → dict_keys (dict_set k v d) = dict_keys d ++ [k].
Proof.
  unfold dict_keys. induction d as [|[k' v'] d IH]; csimpl; [done|].
  rewrite not_elem_of_cons. intros [Hne Hk]. rewrite decide_False by done.
  csimpl. by rewrite IH.
Qed.

Lemma dict_get_Ok_elem {V} k (v : V) (d : dict V) :
  dict_get k d = Ok v → (k, v) ∈ d.
Proof.
  induction d as [|[k' v'] d IH]; simpl; [done|].
  destruct (decide (k = k')) as [->|Hne].
  - intros [= ->]. left.
  - intros H. right. by apply IH.
Qed.

Lemma NoDup_omap_inj {A B} (f : A → option B) (l : list A) x y k :
  NoDup (omap f l) → x ∈ l → y ∈ l → f x = Some k → f y = Some k → x = y.
Proof.
  induction l as [|z l IH]; intros Hnd Hx Hy Hfx Hfy.
  - by apply elem_of_nil in Hx.
  - simpl in Hnd. apply elem_of_cons in Hx as [->|Hx];
      apply elem_of_cons in Hy as [->|Hy]; try done.
    + rewrite Hfx in Hnd. apply NoDup_cons in Hnd as [Hk _].
      exfalso. apply Hk. apply list_elem_of_omap. eauto.
    + rewrite Hfy in Hnd. apply NoDup_cons in Hnd as [Hk _].
      exfalso. apply Hk. apply list_elem_of_omap. eauto.
    + destruct (f z); [apply NoDup_cons in Hnd as [_ Hnd]|]; eauto.
Qed.

Section TriggerFacts.
Context {C : Type}.
Implicit Types (lines : list (PopupItem C)) (d : dict (PopupItem C)).

Lemma triggers_of_cons (l : PopupItem C) lines :
  triggers_of (l :: lines)
  = match trigger l with
    | Some tr => VStr (lower tr) :: triggers_of lines
    | None => triggers_of lines
    end.
Proof. unfold triggers_of. simpl. by destruct (trigger l). Qed.

Lemma all_triggers_keys lines d0 d :
  all_triggers lines d0 = inr d →
  dict_keys d = dict_keys d0 ++ triggers_of lines.
Proof.
  revert d0. induction lines as [|l lines IH]; intros d0 H; simpl in H.
  - injection H as <-. unfold triggers_of. simpl. by rewrite app_nil_r.
  - rewrite triggers_of_cons. destruct (trigger l) as [tr|]; [|by apply IH].
    case_bool_decide as Hin; [done|].
    rewrite (IH _ H), dict_keys_set_fresh by done. by rewrite <-app_assoc.
Qed.

Lemma all_triggers_NoDup lines d0 d :
  all_triggers lines d0 = inr d → NoDup (dict_keys d0) → NoDup (dict_keys d).
Proof.
  revert d0. induction lines as [|l lines IH]; intros d0 H Hnd; simpl in H.
  - by injection H as <-.
  - destruct (trigger l); [|by eapply IH].
    case_bool_decide; [done|]. eapply IH; [exact H|].
    by apply NoDup_dict_set.
Qed.

Lemma all_triggers_total lines d0 :
  NoDup (dict_keys d0 ++ triggers_of lines) →
  ∃ d, all_triggers lines d0 = inr d.
Proof.
  revert d0. induction lines as [|l lines IH]; intros d0 Hnd; simpl; [eauto|].
  rewrite triggers_of_cons in Hnd. destruct (trigger l) as [tr|]; [|by apply IH].
  rewrite bool_decide_false.
  - apply IH. rewrite dict_keys_set_fresh.
    + by rewrite <-app_assoc.
    + apply NoDup_app in Hnd as (_ & Hd & _). intros Hin.
      apply (Hd _ Hin). left.
  - apply NoDup_app in Hnd as (_ & Hd & _). intros Hin. apply (Hd _ Hin). left.
Qed.

Lemma all_triggers_entries (lines0 : list (PopupItem C)) lines d0 d :
  all_triggers lines d0 = inr d →
  (∀ l, l ∈ lines → l ∈ lines0) →
  Forall (λ e, e.2 ∈ lines0 ∧ ∃ tr, trigger e.2 = Some tr ∧ VStr (lower tr) = e.1)
    d0 →
  Forall (λ e, e.2 ∈ lines0 ∧ ∃ tr, trigger e.2 = Some tr ∧ VStr (lower tr) = e.1)
    d.
Proof.
  revert d0. induction lines as [|l lines IH]; intros d0 H Hsub Hd0; simpl in H.
  - by injection H as <-.
  - assert (∀ l', l' ∈ lines → l' ∈ lines0) as Hsub'
      by (intros l' Hl'; apply Hsub; by right).
    destruct (trigger l) as [tr|] eqn:Htr; [|by eapply IH].
    case_bool_decide as Hin; [done|].
    eapply IH; [exact H|done|]. apply Forall_dict_set_key; [|done].
    simpl. split; [apply Hsub; left|eauto].
Qed.

(** X21.  The trigger table of a popup.  [PopupWindow.__init__] succeeds
    exactly when the lowercased triggers of its lines are pairwise
    different.  The table then finds, for a key, the one line whose trigger
    is that key up to case; since the key itself is not lowercased, only a
    key that is its own lowercase form can find a line. *)
Theorem popup_trigger_table lines :
  ((∃ d, all_triggers lines [] = inr d) ↔ NoDup (triggers_of lines)) ∧
  ∀ d, all_triggers lines [] = inr d →
    (∀ key l, dict_get (VStr key) d = Ok l ↔
       l ∈ lines ∧ ∃ tr, trigger l = Some tr ∧ lower tr = key) ∧
    (∀ key l, dict_get (VStr key) d = Ok l → lower key = key).
Proof.
  split.
  - split.
    + intros [d Hd]. pose proof (all_triggers_keys _ _ _ Hd) as Hk.
      simpl in Hk. rewrite <-Hk.
      eapply all_triggers_NoDup; [exact Hd|constructor].
    + intros Hnd. by apply all_triggers_total.
  - intros d Hd.
    pose proof (all_triggers_keys _ _ _ Hd) as Hk. simpl in Hk.
    assert (NoDup (triggers_of lines)) as Hnd.
    { rewrite <-Hk. eapply all_triggers_NoDup; [exact Hd|constructor]. }
    pose proof (all_triggers_entries lines lines [] d Hd (λ _ H, H)
                  (Forall_nil_2 _)) as Hent.
    rewrite Forall_forall in Hent.
    assert (∀ key l, dict_get (VStr key) d = Ok l ↔
              l ∈ lines ∧ ∃ tr, trigger l = Some tr ∧ lower tr = key) as Hlook.
    { intros key l. split.
      - intros Hget%dict_get_Ok_elem.
        destruct (Hent _ Hget) as (Hl & tr & Htr & [= Heq]). eauto.
      - intros (Hl & tr & Htr & <-).
        assert (VStr (lower tr) ∈ dict_keys d) as Hin.
        { rewrite Hk. apply list_elem_of_omap. exists l. by rewrite Htr. }
        destruct (dict_get_elem _ _ Hin) as (l' & Hget & Hel).
        destruct (Hent _ Hel) as (Hl' & tr' & Htr' & Heq). simpl in *.
        replace l with l'; [done|].
        eapply (NoDup_omap_inj _ lines l' l (VStr (lower tr)) Hnd);
          [done..| |]; simpl.
        + by rewrite Htr', <-Heq.
        + by rewrite Htr. }
    split; [done|]. intros key l (_ & tr & _ & <-)%Hlook. apply lower_idemp.
Qed.

End TriggerFacts.

(** ** The sort popup: turning the direction over twice *)




Section StableUnique.
Context {A : Type} (key : A → result value) (rev : bool).





End StableUnique.

Section ReverseTwice.
Context {widget detail_win chrome : Type}.
Implicit Types (c : Console (widget := widget) (detail_win := detail_win)
                      (chrome := chrome)).





End ReverseTwice.

(** ** rpc.py *)

Section RpcFacts.
Context {A : Type}.
Implicit Types (r : response A) (rv : reply A).

(** X23.  The session handshake of [send_request].  A request is posted at
    most twice.  Against a daemon that demands a non-empty session
    identifier, any request ends as the daemon's real answer does and leaves
    the identifier stored, after two posts when the identifier was not
    known and after one when it was.  A second 409 is not retried: it is
    reported as a bad status. *)
Theorem send_request_handshake :
  (∀ post sid, (send_request (A := A) post sid).1.2 ≤ 2)%nat ∧
  (∀ s r sid, s ≠ "" → status_code r ≠ 409%Z →
     send_request (csrf_server s r) sid
     = (Some s, if decide (sid = Some s) then 1%nat else 2%nat,
        finish_request r)) ∧
  (∀ post sid r1 s r2,
     post (header_of sid) = inr r1 → status_code r1 = 409%Z →
     session_header r1 = Some s →
     post (header_of (Some s)) = inr r2 → status_code r2 = 409%Z →
     send_request post sid = (Some s, 2%nat, inl (BadStatus 409))).
Proof.
  split_and!.
  - intros post sid. unfold send_request.
    repeat case_match; cbn [fst snd]; lia.
  - intros s r sid Hs Hr. unfold send_request, csrf_server.
    assert (header_of (Some s) = Some s) as Hh
      by (simpl; by rewrite decide_False).
    destruct (decide (sid = Some s)) as [->|Hne].
    + rewrite Hh, decide_True by done.
      by rewrite (proj2 (Z.eqb_neq _ _) Hr).
    + rewrite decide_False.
      * cbn [status_code session_header]. rewrite Z.eqb_refl, Hh.
        by rewrite decide_True.
      * intros Heq. apply Hne. unfold header_of in Heq.
        destruct sid as [s'|]; [|done]. by destruct (decide (s' = "")).
  - intros post sid r1 s r2 H1 Hc1 Hs H2 Hc2. unfold send_request.
    rewrite H1, Hc1, Z.eqb_refl, Hs, H2. unfold finish_request.
    by rewrite Hc2.
Qed.

(** X24.  What [send_request] accepts as an answer: a status outside the
    range of errors and a body whose [result] is the string [success].  Any
    other string gives an [RPCError] that names it, and a status from 400 to
    599 is a bad status whatever the body says. *)
Theorem finish_request_accepts_success r :
  (∀ rv, finish_request r = inr rv ↔
     ¬ (400 <= status_code r < 600)%Z ∧ body r = Some rv ∧
     reply_result rv = Some (VStr "success")) ∧
  ((400 <= status_code r < 600)%Z →
     finish_request r = inl (BadStatus (status_code r))) ∧
  (∀ rv s, ¬ (400 <= status_code r < 600)%Z → body r = Some rv →
     reply_result rv = Some (VStr s) → s ≠ "success" →
     finish_request r = inl (RPCError ("Error: " +:+ s))).
Proof.
  unfold finish_request, raise_for_result. split_and!.
  - intros rv. destruct (Z.leb_spec 400 (status_code r)),
      (Z.ltb_spec (status_code r) 600); simpl;
      try (split; [done|intros [? _]; lia]).
    all: destruct (body r) as [rv'|]; [|split; [done|by intros (_ & ? & _)]].
    all: destruct (reply_result rv') as [[z|s]|] eqn:Hres;
      try (split; [done|intros (_ & [= ->] & ?); congruence]).
    all: destruct (decide (s = "success")) as [->|Hne].
    all: try (split; [intros [= ->]; split_and!; [lia|done..]|by intros (_ & [= ->] & _)]).
    all: split; [done|intros (_ & [= ->] & ?); congruence].
  - intros [H1 H2]. apply Z.leb_le in H1. apply Z.ltb_lt in H2.
    by rewrite H1, H2.
  - intros rv s Hst Hb Hres Hne.
    assert (((400 <=? status_code r) && (status_code r <? 600))%Z = false) as ->.
    { apply andb_false_iff.
      destruct (Z.leb_spec 400 (status_code r)); [|by left].
      right. apply Z.ltb_ge. lia. }
    by rewrite Hb, Hres, decide_False.
Qed.

End RpcFacts.

(** ** The further properties on the sample data *)

Lemma is_ok_true {A} (r : result A) : is_ok r = true → ∃ a, r = Ok a.
Proof. destruct r; [eauto|discriminate]. Qed.

Lemma is_right_true {A B} (s : A + B) : is_right s = true → ∃ b, s = inr b.
Proof. destruct s; [discriminate|eauto]. Qed.

Lemma is_next_true {W D C} (p : @poll_result W D C) :
  is_next p = true → ∃ start t', p = Next start t'.
Proof. destruct p; [eauto|discriminate]. Qed.

Lemma listed_NoDup : NoDup (order Demo2.listed).
Proof. apply (bool_decide_unpack _). vm_compute. exact I. Qed.

Lemma listed_order_ok : order_ok Demo2.listed.
Proof.
  split; [apply listed_NoDup|].
  apply NoDup_Permutation; [apply listed_NoDup| |].
  - apply (bool_decide_unpack _). vm_compute. exact I.
  - intros x. unfold Demo2.listed, dict_keys. simpl. set_solver.
Qed.

Lemma listed_is_first_reconcile :
  set_entries Demo.row Demo.fresh Demo.recs = Ok Demo2.listed.
Proof. vm_compute. reflexivity. Qed.

Lemma listed_again :
  set_entries Demo.row Demo2.listed Demo.recs = Ok Demo2.listed.
Proof. vm_compute. reflexivity. Qed.

Lemma next_prev_inverse_witness :
  NoDup (order Demo2.listed) ∧
  (next_position (VInt 2) Demo2.listed = Ok (VInt 3) ↔
   prev_position (VInt 3) Demo2.listed = Ok (VInt 2)).
Proof.
  split; [apply listed_NoDup|].
  apply (next_prev_inverse Demo2.listed (VInt 2) (VInt 3) listed_NoDup).
Defined.

Lemma navigation_edges_witness :
  NoDup (order Demo2.listed) ∧
  next_position (VInt 1) Demo2.listed = Raise IndexError ∧
  prev_position (VInt 2) Demo2.listed = Raise IndexError.
Proof.
  split; [apply listed_NoDup|].
  destruct (navigation_edges Demo2.listed (VInt 1) listed_NoDup)
    as (_ & Hlast & _).
  destruct (navigation_edges Demo2.listed (VInt 2) listed_NoDup)
    as (_ & _ & Hfirst & _).
  split; [apply Hlast|apply Hfirst]; reflexivity.
Defined.

Lemma focus_never_dangles_witness :
  set_entries Demo.row Demo.fresh Demo.recs = Ok Demo2.listed ∧
  focus_ok Demo2.listed.
Proof.
  split; [apply listed_is_first_reconcile|].
  destruct (focus_never_dangles Demo.row) as (H & _).
  apply (H _ _ _ listed_is_first_reconcile).
Defined.

Lemma choices_applied :
  ∃ w', set_sorts (explicit Demo2.choices) Demo2.listed = Ok w'.
Proof. apply is_ok_true. vm_compute. reflexivity. Qed.

Lemma sort_history_bound_witness :
  Demo2.choices ≠ [] ∧
  ∃ w', set_sorts (explicit Demo2.choices) Demo2.listed = Ok w' ∧
        sorts w' = [("name", false); ("size", true)].
Proof.
  assert (Demo2.choices ≠ []) as Hne by discriminate.
  split; [exact Hne|].
  destruct choices_applied as [w' H]. exists w'. split; [exact H|].
  exact (proj2 (sort_history_bound (widget := string)) _ _ _ H Hne).
Defined.

Lemma set_entries_idempotent_witness :
  set_entries Demo.row Demo.fresh Demo.recs = Ok Demo2.listed ∧
  set_entries Demo.row Demo2.listed Demo.recs = Ok Demo2.listed.
Proof.
  split; [apply listed_is_first_reconcile|].
  apply (set_entries_idempotent Demo.row Demo.fresh),
    listed_is_first_reconcile.
Defined.

Lemma listed_three_not_nine :
  VInt 9 ∉ order Demo2.listed ∧ VInt 3 ∈ order Demo2.listed.
Proof. unfold Demo2.listed. simpl. set_solver. Qed.

Lemma rows_come_from_the_list_witness :
  set_entries Demo.row Demo.fresh Demo.recs = Ok Demo2.listed ∧
  walker_getitem (VInt 9) Demo2.listed = Raise (KeyError (VInt 9)) ∧
  ∃ t wd, walker_getitem (VInt 3) Demo2.listed = Ok wd ∧
          Demo.row t = Ok wd ∧ t ∈ Demo.recs ∧ t !! "id" = Some (VInt 3).
Proof.
  split; [apply listed_is_first_reconcile|].
  destruct (rows_come_from_the_list Demo.row _ _ _ listed_is_first_reconcile)
    as [Hin Hout].
  split; [apply Hout|apply Hin]; apply listed_three_not_nine.
Defined.

Lemma set_entries_accepts_only_complete_data_witness :
  set_entries Demo.row Demo.fresh Demo.recs = Ok Demo2.listed ∧
  Forall (λ t : torrent, is_Some (t !! "id") ∧ renders Demo.row t) Demo.recs ∧
  ∀ s x t wd,
    s ∈ sorts Demo.fresh →
    (x, (t, wd)) ∈ entries Demo2.listed → is_Some (t !! s.1).
Proof.
  split; [apply listed_is_first_reconcile|].
  exact (set_entries_accepts_only_complete_data Demo.row _ _ _
           listed_is_first_reconcile).
Defined.

Lemma listed_by_size :
  ∃ w1, set_sort (Some "size") (Some false) Demo2.listed = Ok w1.
Proof. apply is_ok_true. vm_compute. reflexivity. Qed.

Lemma resort_by_same_criterion_keeps_order_witness :
  ∃ w1 k r,
    set_sort (Some "size") (Some false) Demo2.listed = Ok w1 ∧
    last (sorts w1) = Some (k, r) ∧
    set_sort None None w1
    = Ok {| entries := entries w1; order := order w1;
            sorts := [(k, r); (k, r)]; focus := focus w1 |}.
Proof.
  destruct listed_by_size as [w1 H].
  destruct (resort_by_same_criterion_keeps_order _ _ _ _ H)
    as (k & r & Hl & Hsame).
  exists w1, k, r. split; [exact H|]. split; [exact Hl|].
  apply Hsame; left; reflexivity.
Defined.

Lemma detail_rendered :
  ∃ t', render_torrents Demo.row Demo.win_info Demo.win_set Demo.recs
          (bridge_init Demo2.with_detail) = Ok t'.
Proof. apply is_ok_true. vm_compute. reflexivity. Qed.

Lemma render_torrents_cursor_witness :
  ∃ t' d,
    render_torrents Demo.row Demo.win_info Demo.win_set Demo.recs
      (bridge_init Demo2.with_detail) = Ok t' ∧
    fr_focus Demo2.with_detail ≠ Body ∧
    set_entries Demo.row Demo2.listed Demo.recs = Ok d ∧
    focus (data (ui t')) = head (order d) ∧
    order (data (ui t')) = order d.
Proof.
  destruct detail_rendered as [t' H].
  destruct (render_torrents_cursor _ _ _ _ _ _ H)
    as (d & Hd & _ & Ho & _ & _ & Hf & _).
  assert (fr_focus Demo2.with_detail ≠ Body) as Hb by discriminate.
  exists t', d. split; [exact H|]. split; [exact Hb|].
  split; [exact Hd|]. split; [exact (Hf Hb)|exact Ho].
Defined.

Lemma render_torrents_requests_witness :
  ∃ t' win tid,
    render_torrents Demo.row Demo.win_info Demo.win_set Demo.recs
      (bridge_init Demo2.with_detail) = Ok t' ∧
    windows Demo2.with_detail !! 0%nat = Some win ∧
    Demo.win_info win !! "id" = Some tid ∧
    queue t' = [{| func := get_torrent_details tid;
                   callback := refresh_cb Demo.win_set 0 |}] ∧
    log t' = [].
Proof.
  destruct detail_rendered as [t' H].
  destruct (render_torrents_requests _ _ _ _ _ _ H)
    as (_ & _ & Hl & win & tid & Hw & Hid & Hq & _).
  exists t', win, tid. split; [exact H|]. split; [exact Hw|].
  split; [exact Hid|]. split; [exact Hq|exact Hl].
Defined.

Lemma recs_well_formed_for_listed :
  well_formed Demo.row (sorts (data Demo2.with_detail)) Demo.recs.
Proof. vm_compute. exact I. Qed.

Lemma render_torrents_completes_witness :
  well_formed Demo.row (sorts (data Demo2.with_detail)) Demo.recs ∧
  ∃ t', render_torrents Demo.row Demo.win_info Demo.win_set Demo.recs
          (bridge_init (V := torrent) (E := daemon) Demo2.with_detail)
        = Ok t'.
Proof.
  split; [apply recs_well_formed_for_listed|].
  apply render_torrents_completes; [apply recs_well_formed_for_listed|].
  intros dwin Hd. injection Hd as <-. exists (Demo.mk 2 "a" 5).
  split; [reflexivity|]. exists (VInt 2). reflexivity.
Defined.

Lemma answered_fetch :
  fetch Demo2.answered
  = ((1 # 5) + (1 # 10) + (1 # 10), Ok (Demo.recs, ∅, ∅))%Q.
Proof. reflexivity. Qed.

Lemma answered_polled :
  ∃ start t',
    update_data_iter Demo.row Demo.win_info Demo.win_set Demo.count_text
      10 Demo2.answered (bridge_init Demo2.browsing) = Next start t'.
Proof. apply is_next_true. vm_compute. reflexivity. Qed.

Lemma successful_round_is_rate_limited_witness :
  fetch Demo2.answered
  = ((1 # 5) + (1 # 10) + (1 # 10), Ok (Demo.recs, ∅, ∅))%Q ∧
  ∃ start t',
    update_data_iter Demo.row Demo.win_info Demo.win_set Demo.count_text
      10 Demo2.answered (bridge_init Demo2.browsing) = Next start t' ∧
    (10 + poll_period <= start)%Q.
Proof.
  split; [exact answered_fetch|].
  destruct answered_polled as (start & t' & H). exists start, t'.
  split; [exact H|].
  exact (proj1 (successful_round_is_rate_limited _ _ _ _ _ _ _ _ _ _ _ _ _
                  answered_fetch H)).
Defined.

Lemma nameless_fetch :
  fetch Demo2.nameless
  = ((1 # 5) + (1 # 10) + (1 # 10), Ok ([<["id" := VInt 7]> ∅], ∅, ∅))%Q.
Proof. reflexivity. Qed.

Lemma nameless_rejected :
  set_entries Demo.row (data (ui (bridge_init (V := torrent) (E := daemon)
                                    Demo2.browsing)))
    [<["id" := VInt 7]> ∅]
  = Raise (KeyError (VStr "name")).
Proof. vm_compute. reflexivity. Qed.

Lemma unmergeable_round_ends_polling_witness :
  fetch Demo2.nameless
  = ((1 # 5) + (1 # 10) + (1 # 10), Ok ([<["id" := VInt 7]> ∅], ∅, ∅))%Q ∧
  update_data_iter Demo.row Demo.win_info Demo.win_set Demo.count_text
    10 Demo2.nameless (bridge_init Demo2.browsing)
  = Crash (KeyError (VStr "name")).
Proof.
  split; [exact nameless_fetch|].
  exact (proj1 (unmergeable_round_ends_polling Demo.row Demo.win_info
                  Demo.win_set Demo.count_text 10 _
                  (bridge_init Demo2.browsing) _ _ _ _ nameless_fetch)
           _ nameless_rejected).
Defined.

Lemma answered_not_failed : round_fails Demo2.answered = false.
Proof. reflexivity. Qed.

Lemma staleness_follows_last_success_witness :
  ∃ start t',
    update_data_iter Demo.row Demo.win_info Demo.win_set Demo.count_text
      10 Demo2.answered (bridge_init Demo2.browsing) = Next start t' ∧
    time_since_update (rates (track_update_time_iter 12 (ui t')).2)
    = (12 - (if round_fails Demo2.answered
             then last_update (ui (bridge_init (V := torrent) (E := daemon)
                                     Demo2.browsing))
             else 10 + (fetch Demo2.answered).1))%Q.
Proof.
  destruct answered_polled as (start & t' & H). exists start, t'.
  split; [exact H|].
  exact (proj1 (staleness_follows_last_success _ _ _ _ _ _ _ _ _ 12%Q H)).
Defined.

Lemma hammering_in_window :
  Forall (λ ev : Q * string, (ev.1 - 0 <= 5)%Q) Demo2.hammering.
Proof. repeat constructor; by vm_compute. Qed.

Lemma five_q_within_five_seconds_exit_witness :
  Forall (λ ev : Q * string, (ev.1 - 0 <= 5)%Q) Demo2.hammering ∧
  press_keys ((0%Q, "q") :: Demo2.hammering) quit_init
  = if bool_decide (4 ≤ count_q Demo2.hammering)%nat then ExitMainLoop
    else Go {| q_time := Some 0%Q; q_count := 1 + count_q Demo2.hammering |}.
Proof.
  split; [exact hammering_in_window|].
  exact (proj1 five_q_within_five_seconds_exit 0%Q _ hammering_in_window).
Defined.

Lemma header_and_list_keys_witness :
  order_ok (data Demo2.browsing) ∧
  ∃ c', on_esc Demo2.browsing = Ok c' ∧ fr_focus c' = Header ∧
        order (data c') = order (data Demo2.browsing).
Proof.
  split; [apply listed_order_ok|].
  destruct (header_and_list_keys Demo2.browsing listed_order_ok)
    as (_ & _ & c' & H & Hfr & _ & Ho & _).
  exists c'. split; [exact H|]. split; [exact Hfr|exact Ho].
Defined.

Lemma knows_two_answer :
  Demo2.knows_two (VInt 2) = Ok [Demo.mk 2 "a" 5].
Proof. reflexivity. Qed.

Lemma detail_request_through_bridge_witness :
  ∃ t2 t3,
    drain_begin (show_torrent_detail Demo.open_win (Demo.mk 2 "a" 5)
                   (bridge_init Demo2.browsing)) = Some t2 ∧
    drain_end Demo2.knows_two t2 = Some t3 ∧
    shown (ui t3) = Some (fresh (dom (windows Demo2.browsing))) ∧
    failed t3 = None.
Proof.
  destruct (detail_request_through_bridge Demo.open_win (Demo.mk 2 "a" 5)
              Demo2.knows_two (bridge_init Demo2.browsing) eq_refl eq_refl
              eq_refl) as (t2 & Hb & _ & Hok & _).
  destruct (Hok (VInt 2) (Demo.mk 2 "a" 5) [] (Demo.mk 2 "a" 5)
              eq_refl knows_two_answer eq_refl)
    as (t3 & He & Hs & _ & _ & _ & _ & _ & Hf).
  exists t2, t3. split; [exact Hb|]. split; [exact He|].
  split; [exact Hs|exact Hf].
Defined.

Lemma nine_in_range : (0 <= 9 < bitset_len [0xA5; 0x40])%Z.
Proof. by vm_compute. Qed.

Lemma bitset_index_agrees_with_iteration_witness :
  (0 <= 9 < bitset_len [0xA5; 0x40])%Z ∧
  ∃ b, bitset_getitem [0xA5; 0x40]%Z 9 = Ok b ∧
       bytes_to_bits [0xA5; 0x40]%Z !! Z.to_nat 9 = Some b.
Proof.
  split; [exact nine_in_range|].
  exact (proj1 (bitset_index_agrees_with_iteration [0xA5; 0x40]%Z) 9%Z
           nine_in_range).
Defined.

Lemma leeches_layout :
  make_underline_layout "Leeches" (Some "c") None "underline"
  = Some [Styled None "Lee"; Styled (Some "underline") "c"; Styled None "hes"].
Proof. reflexivity. Qed.

Lemma underline_layout_cuts_at_first_occurrence_witness :
  make_underline_layout "Leeches" (Some "c") None "underline"
  = Some [Styled None "Lee"; Styled (Some "underline") "c"; Styled None "hes"] ∧
  ∃ ind a b c,
    String.append a (String.append b c) = "Leeches" ∧
    String.index 0 "c" "Leeches" = Some ind ∧ b = "c".
Proof.
  split; [exact leeches_layout|].
  destruct (underline_layout_cuts_at_first_occurrence "Leeches" None "underline")
    as (_ & _ & Hcut).
  destruct (Hcut "c" _ leeches_layout)
    as (ind & a & b & c & _ & Hcat & Hi & _ & Hb & _).
  exists ind, a, b, c. split; [exact Hcat|]. split; [exact Hi|].
  apply Hb. reflexivity.
Defined.

Lemma leeches_item :
  ∃ it, popup_item "Leeches" (Some "c") (Some 5%nat) = inr it.
Proof. apply is_right_true. vm_compute. reflexivity. Qed.

Lemma popup_item_checks_then_lays_out_witness :
  ∃ it, popup_item "Leeches" (Some "c") (Some 5%nat) = inr it ∧
        item_text it = "Leeches" ∧ trigger it = Some "c".
Proof.
  destruct leeches_item as [it H]. exists it. split; [exact H|].
  destruct (popup_item_checks_then_lays_out "Leeches" (Some "c") (Some 5%nat))
    as [_ Hit].
  destruct (Hit it H) as (Htx & Htr & _). split; [exact Htx|exact Htr].
Defined.

Lemma sort_window_table :
  ∃ items d, sort_control_window = inr (items, d) ∧
             all_triggers items [] = inr d.
Proof.
  assert (is_right sort_control_window = true) as H
    by (vm_compute; reflexivity).
  unfold sort_control_window in *.
  destruct (build_items _) as [e|items]; [discriminate|].
  destruct (all_triggers items []) as [e|d] eqn:Ha; [discriminate|].
  exists items, d. split; [reflexivity|exact Ha].
Qed.

Lemma clashing_triggers : ¬ NoDup (triggers_of Demo2.clashing).
Proof. intros Hnd. apply NoDup_cons in Hnd as [Hnd _]. apply Hnd. left. Qed.

Lemma popup_trigger_table_witness :
  (∃ items d, sort_control_window = inr (items, d) ∧
     all_triggers items [] = inr d ∧ NoDup (triggers_of items) ∧
     ∀ key l, dict_get (VStr key) d = Ok l → lower key = key) ∧
  ¬ NoDup (triggers_of Demo2.clashing) ∧
  ¬ ∃ d, all_triggers Demo2.clashing [] = inr d.
Proof.
  split.
  - destruct sort_window_table as (items & d & Hw & Ha).
    destruct (popup_trigger_table items) as [Hiff Hlook].
    exists items, d. split; [exact Hw|]. split; [exact Ha|].
    split; [apply Hiff; exists d; exact Ha|exact (proj2 (Hlook d Ha))].
  - split; [exact clashing_triggers|].
    intros Hd. apply clashing_triggers.
    exact (proj1 (proj1 (popup_trigger_table Demo2.clashing)) Hd).
Defined.




Lemma abc_not_empty : "abc" ≠ "".
Proof. discriminate. Qed.

Lemma fine_not_conflict : status_code Demo2.fine ≠ 409%Z.
Proof. discriminate. Qed.

Lemma send_request_handshake_witness :
  "abc" ≠ "" ∧ status_code Demo2.fine ≠ 409%Z ∧
  send_request (csrf_server "abc" Demo2.fine) None
  = (Some "abc", if decide (None = Some "abc") then 1%nat else 2%nat,
     finish_request Demo2.fine).
Proof.
  split; [exact abc_not_empty|]. split; [exact fine_not_conflict|].
  exact (proj1 (proj2 (send_request_handshake (A := nat)))
           "abc" Demo2.fine None abc_not_empty fine_not_conflict).
Defined.

Lemma fine_status : ¬ (400 <= status_code Demo2.fine < 600)%Z.
Proof. simpl. lia. Qed.

Lemma finish_request_accepts_success_witness :
  ¬ (400 <= status_code Demo2.fine < 600)%Z ∧
  ∃ rv, finish_request Demo2.fine = inr rv ∧ body Demo2.fine = Some rv.
Proof.
  split; [exact fine_status|]. eexists. split; [|reflexivity].
  apply (proj1 (finish_request_accepts_success Demo2.fine)).
  split; [exact fine_status|]. split; reflexivity.
Defined.
